(** * hundo: the CREST classifier (hundo/crest_classifier.py)

    A shallow embedding of the taxonomy tree ([Tree]), of the LCA search,
    of threshold climbing, of the renderer and of [parse_blasthits],
    followed by the properties of these functions.

    Conventions of the embedding.
    - A [Clade] object is a [node]: its identity.  The topology of
      [self.tree] is a rose tree of identities ([clade]); the mutable
      [name] attribute of every clade lives in the map [clade_name]
      (absent: the name is [None]).  A [Clade] is always true in a
      condition, so [if n:] and [if not node:] only test for [None].
    - The fields of a [Tree] object and the records sent to [logging] are
      one state record, threaded through a state-and-exception monad [M].
    - A Python exception is [Raise]; a loop that has not finished when its
      fuel is used up is [Diverge].
    - Floats ([similarity_cutoff], [pident], [bitscore]) are rationals: the
      code only compares them.
    - Strings are ASCII strings; [\d] is [0-9].
    - The files are taken as read: the tree as [Phylo.read] returns it,
      the rows of the map file and the lines of the BLAST table with their
      fields split and converted.
    - The OTUs are a map from names to records, each key with a record of
      its own, as [run_crest_classifier] builds them. *)

From Stdlib Require Import QArith Ascii String.
From stdpp Require Import base option list gmap strings.

Set Warnings "-register-all".
Local Open Scope string_scope.
Local Open Scope list_scope.
Local Open Scope nat_scope.

(** ** Python values and outcomes *)

Definition node := nat.

(** The topology of a [Bio.Phylo] tree: a clade and its [clades] list. *)
Inductive clade := Clade (n : node) (clades : list clade).

Definition clade_id (c : clade) : node := let 'Clade n _ := c in n.

(** What [verify_node] and [get_parent] receive: a clade, a [str], or
    anything else ([None] included). *)
Inductive ref := RClade (n : node) | RName (nn : string) | ROther.

Inductive exn := TypeError | IndexError | KeyError | AttributeError.

Inductive outcome (A : Type) :=
| Ok (a : A)
| Raise (e : exn)
| Diverge.
Arguments Ok {A} a.
Arguments Raise {A} e.
Arguments Diverge {A}.

(** The records handed to [logging], one constructor per call site. *)
Inductive log_record :=
| ErrNodeNotFound (node_id name : string)
| ErrVerifyNotFound (nn : string)
| ErrVerifyStrange
| ErrNotUnique (nodename : string)
| ErrNoParentBeyond (plist : list (option node))
| DbgNoLCA (names : list string).

(** ** The [Tree] object *)

Record Tree := mkTree {
  tree : clade;
  clade_name : gmap node string;
  node_names : gmap string node;
  node_ids : gmap string node;
  assignment_min : gmap string Q;
  parents : gmap node (option node);
  no_hits : option node;
  logged : list log_record;
  next_clade : node;
}.

(** [self.root = self.tree.root] *)
Definition root (t : Tree) : node := clade_id (tree t).

Definition set_tree (c : clade) (t : Tree) : Tree :=
  mkTree c (clade_name t) (node_names t) (node_ids t) (assignment_min t)
         (parents t) (no_hits t) (logged t) (next_clade t).
Definition set_clade_name (n : node) (s : string) (t : Tree) : Tree :=
  mkTree (tree t) (<[n:=s]> (clade_name t)) (node_names t) (node_ids t)
         (assignment_min t) (parents t) (no_hits t) (logged t) (next_clade t).
Definition set_node_name (s : string) (n : node) (t : Tree) : Tree :=
  mkTree (tree t) (clade_name t) (<[s:=n]> (node_names t)) (node_ids t)
         (assignment_min t) (parents t) (no_hits t) (logged t) (next_clade t).
Definition set_node_id (s : string) (n : node) (t : Tree) : Tree :=
  mkTree (tree t) (clade_name t) (node_names t) (<[s:=n]> (node_ids t))
         (assignment_min t) (parents t) (no_hits t) (logged t) (next_clade t).
Definition set_assignment_min (s : string) (q : Q) (t : Tree) : Tree :=
  mkTree (tree t) (clade_name t) (node_names t) (node_ids t)
         (<[s:=q]> (assignment_min t)) (parents t) (no_hits t) (logged t)
         (next_clade t).
Definition set_parent (n : node) (p : option node) (t : Tree) : Tree :=
  mkTree (tree t) (clade_name t) (node_names t) (node_ids t) (assignment_min t)
         (<[n:=p]> (parents t)) (no_hits t) (logged t) (next_clade t).
Definition set_no_hits (o : option node) (t : Tree) : Tree :=
  mkTree (tree t) (clade_name t) (node_names t) (node_ids t) (assignment_min t)
         (parents t) o (logged t) (next_clade t).
Definition add_log (r : log_record) (t : Tree) : Tree :=
  mkTree (tree t) (clade_name t) (node_names t) (node_ids t) (assignment_min t)
         (parents t) (no_hits t) (logged t ++ [r]) (next_clade t).
Definition bump_clade (t : Tree) : Tree :=
  mkTree (tree t) (clade_name t) (node_names t) (node_ids t) (assignment_min t)
         (parents t) (no_hits t) (logged t) (S (next_clade t)).

(** ** The monad of the methods *)

Definition M (A : Type) : Type := Tree → outcome (A * Tree).

Definition ret {A} (a : A) : M A := λ t, Ok (a, t).
Definition raise {A} (e : exn) : M A := λ _, Raise e.
Definition diverge {A} : M A := λ _, Diverge.
Definition bind {A B} (m : M A) (k : A → M B) : M B :=
  λ t, match m t with
       | Ok (a, t') => k a t'
       | Raise e => Raise e
       | Diverge => Diverge
       end.
Definition gets {A} (f : Tree → A) : M A := λ t, Ok (f t, t).
Definition modify (f : Tree → Tree) : M unit := λ t, Ok (tt, f t).
Definition logging (r : log_record) : M unit := modify (add_log r).

Notation "x <- m ;; k" := (bind m (λ x, k))
  (at level 100, m at next level, right associativity, only parsing).
Notation "m ;;; k" := (bind m (λ _, k))
  (at level 100, right associativity, only parsing).

(** ** Bio.Phylo: [tree.get_path]

    The library's [TreeMixin.get_path(target)]: the clades between the
    root (excluded) and the target (included), found depth first by
    identity; [None] when the target is not in the tree. *)

Fixpoint find_path (target : node) (c : clade) : option (list node) :=
  match c with
  | Clade n cs =>
      if decide (n = target) then Some [n]
      else
        (fix go (cs : list clade) : option (list node) :=
           match cs with
           | [] => None
           | c' :: cs' =>
               match find_path target c' with
               | Some p => Some (n :: p)
               | None => go cs'
               end
           end) cs
  end.

Definition phylo_get_path (c : clade) (target : node) : option (list node) :=
  tail <$> find_path target c.

(** [parent.clades.append(node)] *)
Fixpoint append_clade (parent : node) (child : clade) (c : clade) : clade :=
  match c with
  | Clade n cs =>
      let cs' := map (append_clade parent child) cs in
      Clade n (if decide (n = parent) then cs' ++ [child] else cs')
  end.

(** ** Methods of [Tree] *)

Definition verify_node (r : ref) : M (option node) :=
  match r with
  | RClade n => ret (Some n)
  | RName nn =>
      found <- gets (λ t, node_names t !! nn) ;;
      match found with
      | None => logging (ErrVerifyNotFound nn) ;;; ret None
      | Some n => ret (Some n)
      end
  | ROther => logging ErrVerifyStrange ;;; ret None
  end.

Definition add_node (nodename : string) (parent : ref) (amin : Q) : M (option node) :=
  known <- gets (λ t, node_names t !! nodename) ;;
  match known with
  | Some _ => logging (ErrNotUnique nodename) ;;; ret None
  | None =>
      nd <- gets next_clade ;;
      modify bump_clade ;;;
      modify (set_clade_name nd nodename) ;;;
      parent <- verify_node parent ;;
      match parent with
      | None => ret None
      | Some p =>
          modify (λ t, set_tree (append_clade p (Clade nd []) (tree t)) t) ;;;
          modify (set_node_name nodename nd) ;;;
          modify (set_assignment_min nodename amin) ;;;
          modify (set_parent nd (Some p)) ;;;
          ret (Some nd)
      end
  end.

Definition get_parent (r : ref) : M (option node) :=
  nd <- verify_node r ;;
  match nd with
  | None => ret None
  | Some n =>
      cached <- gets (λ t, parents t !! n) ;;
      match cached with
      | Some p => ret p
      | None =>
          p <- gets (λ t, phylo_get_path (tree t) n) ;;
          match p with
          | Some l =>
              match rev l with
              | _ :: parent :: _ =>
                  modify (set_parent n (Some parent)) ;;; ret (Some parent)
              | _ => rt <- gets root ;; ret (Some rt)
              end
          | None => rt <- gets root ;; ret (Some rt)
          end
      end
  end.

(** The [while] loop of [get_path]: [parent] is the clade still to be
    prepended, [plist] the path built so far. *)
Fixpoint get_path_loop (fuel : nat) (parent : option node) (plist : list node)
  : M (option (list node)) :=
  match parent with
  | None => logging (ErrNoParentBeyond (Some <$> plist)) ;;; ret None
  | Some p =>
      rt <- gets root ;;
      if decide (p = rt) then ret (Some plist)
      else
        match fuel with
        | 0 => diverge
        | S fuel' =>
            parent' <- get_parent (RClade p) ;;
            get_path_loop fuel' parent' (p :: plist)
        end
  end.

Definition get_path (fuel : nat) (nd : option node) : M (option (list node)) :=
  match nd with
  | None =>
      (* [plist = [None]]; [get_parent(None)] is [None] *)
      get_parent ROther ;;;
      logging (ErrNoParentBeyond [None]) ;;; ret None
  | Some n =>
      rt <- gets root ;;
      if decide (n = rt) then ret (Some [n])
      else
        parent <- get_parent (RClade n) ;;
        get_path_loop fuel parent [n]
  end.

Definition get_depth (fuel : nat) (r : ref) : M nat :=
  nd <- verify_node r ;;
  pth <- get_path fuel nd ;;
  match pth with
  | None => raise TypeError
  | Some l =>
      rt <- gets root ;;
      if (length l =? 1) && bool_decide (l !! 0 = Some rt) then ret 0
      else ret (length l)
  end.

(** [sorted(paths, key=len)]: stable, ascending length. *)
Fixpoint insert_len (p : list node) (ps : list (list node)) : list (list node) :=
  match ps with
  | [] => [p]
  | q :: qs =>
      if length p <=? length q then p :: q :: qs else q :: insert_len p qs
  end.

Definition sorted_len (ps : list (list node)) : list (list node) :=
  foldr insert_len [] ps.

(** The key function [len] raises on a path that is [None]. *)
Fixpoint all_paths (ps : list (option (list node))) : option (list (list node)) :=
  match ps with
  | [] => Some []
  | None :: _ => None
  | Some p :: ps' => cons p <$> all_paths ps'
  end.

Inductive shrunk :=
| Kept (rpath : list node)
| ReturnRoot
| EmptyPath.

(** The inner [while] of [get_common_ancestor].  [lca_path] is held
    reversed: [lca_path[-1]] is the head and [pop()] takes the tail. *)
Fixpoint shrink (rpath : list node) (path : list node) : shrunk :=
  match rpath with
  | [] => EmptyPath
  | x :: rest =>
      if bool_decide (x ∈ path) then Kept rpath
      else
        match rest with
        | [] => ReturnRoot
        | _ => shrink rest path
        end
  end.

(** The [for path in paths[1:]] loop. *)
Fixpoint intersect (rpath : list node) (paths : list (list node)) : shrunk :=
  match paths with
  | [] => Kept rpath
  | path :: paths' =>
      match shrink rpath path with
      | Kept rpath' => intersect rpath' paths'
      | r => r
      end
  end.

Fixpoint get_paths (fuel : nat) (nodes : list (option node))
  : M (list (option (list node))) :=
  match nodes with
  | [] => ret []
  | n :: nodes' =>
      p <- get_path fuel n ;;
      ps <- get_paths fuel nodes' ;;
      ret (p :: ps)
  end.

(** [list(set(...))]: the order of a Python set is not specified; the
    embedding keeps one occurrence of each element, in list order. *)
Definition get_common_ancestor (fuel : nat) (names : list string) : M (option node) :=
  nodes <- gets (λ t, remove_dups ((λ n, node_names t !! n) <$> names)) ;;
  match nodes with
  | [n] => ret n
  | _ =>
      ps <- get_paths fuel nodes ;;
      match all_paths ps with
      | None => raise TypeError
      | Some ps' =>
          match sorted_len ps' with
          | [] => raise IndexError
          | lca_path :: rest =>
              match intersect (rev lca_path) rest with
              | Kept (x :: _) => ret (Some x)
              | Kept [] => raise IndexError
              | ReturnRoot => rt <- gets root ;; ret (Some rt)
              | EmptyPath => raise IndexError
              end
          end
      end
  end.

(** [get_all_children]: post-order walk that fills [self.parents]. *)
Fixpoint get_all_children (c : clade) (parent : option node)
    (children : list node) (t : Tree) : list node * Tree :=
  match c with
  | Clade n cs =>
      let '(children', t') :=
        (fix go (cs : list clade) (children : list node) (t : Tree) :=
           match cs with
           | [] => (children, t)
           | c' :: cs' =>
               let '(ch, t1) := get_all_children c' (Some n) children t in
               go cs' ch t1
           end) cs children t in
      (children' ++ [n], set_parent n parent t')
  end.

(** ** [Tree.__init__] *)

(** A row of the [.map] file: [toks[0]], [toks[1]] and [float(toks[3])]. *)
Record map_row := MapRow {
  row_node_id : string;
  row_name : string;
  row_cutoff : Q;
}.

Inductive cclass := Digit | NonDigit.

Definition is_digit (a : ascii) : bool :=
  (48 <=? nat_of_ascii a) && (nat_of_ascii a <=? 57).

Definition in_class (k : cclass) (a : ascii) : bool :=
  match k with Digit => is_digit a | NonDigit => negb (is_digit a) end.

(** [re.compile(pat + "\Z").match(s)]: every character class in turn,
    then the end of the string. *)
Fixpoint re_match (pat : list cclass) (s : string) : bool :=
  match pat, s with
  | [], EmptyString => true
  | k :: pat', String a s' => in_class k a && re_match pat' s'
  | _, _ => false
  end.

Definition accession_re : list (list cclass) :=
  [ replicate 2 NonDigit ++ replicate 6 Digit;
    replicate 1 NonDigit ++ replicate 5 Digit;
    replicate 4 NonDigit ++ replicate 9 Digit;
    replicate 4 NonDigit ++ replicate 8 Digit ].

Definition is_accession (name : string) : bool :=
  existsb (λ re, re_match re name) accession_re.

(** The body of [for line in fh]. *)
Definition read_row (r : map_row) : M unit :=
  n <- gets (λ t, node_ids t !! row_node_id r) ;;
  match n with
  | Some n =>
      modify (set_node_name (row_name r) n) ;;;
      if Qle_bool 0 (row_cutoff r) && negb (is_accession (row_name r)) then
        modify (set_assignment_min (row_name r) (row_cutoff r)) ;;;
        modify (set_clade_name n (row_name r))
      else ret tt
  | None => logging (ErrNodeNotFound (row_node_id r) (row_name r))
  end.

Fixpoint read_map (rows : list map_row) : M unit :=
  match rows with
  | [] => ret tt
  | r :: rows' => read_row r ;;; read_map rows'
  end.

(** [self.node_ids[child.name] = child]; a clade without a name goes
    under the key [None], which no row can ask for. *)
Fixpoint index_children (children : list node) : M unit :=
  match children with
  | [] => ret tt
  | child :: rest =>
      nm <- gets (λ t, clade_name t !! child) ;;
      match nm with
      | Some s => modify (set_node_id s child)
      | None => ret tt
      end ;;;
      index_children rest
  end.

Fixpoint max_id (c : clade) : node :=
  match c with
  | Clade n cs => foldr (λ c' m, max_id c' `max` m) n cs
  end.

(** The tree as [Phylo.read] returns it: its topology and the names of
    its clades.  New clades get identities above those of the tree. *)
Definition blank (trefile : clade) (names : gmap node string) : Tree :=
  mkTree trefile names ∅ ∅ ∅ ∅ None [] (S (max_id trefile)).

Definition init_tree (mapfile : list map_row) : M unit :=
  rt <- gets root ;;
  nh <- add_node "No hits" (RClade rt) 0 ;;
  modify (set_no_hits nh) ;;;
  children <- (λ t, Ok (get_all_children (tree t) None [] t)) ;;
  index_children children ;;;
  read_map mapfile.

Definition __init__ (mapfile : list map_row) (trefile : clade)
    (names : gmap node string) : outcome Tree :=
  match init_tree mapfile (blank trefile names) with
  | Ok (_, t) => Ok t
  | Raise e => Raise e
  | Diverge => Diverge
  end.

(** ** [Tree.get_taxonomy] *)

Definition ROOT := 0.
Definition META := 1.
Definition DOMAIN := 2.
Definition SUPERKINGDOM := 3.
Definition KINGDOM := 4.
Definition PHYLUM := 5.
Definition CLASS := 6.
Definition ORDER := 7.
Definition FAMILY := 8.
Definition GENUS := 9.
Definition SPECIES := 10.
Definition SUBSPECIES := 11.

Definition depths (d : nat) : option string :=
  match d with
  | 0 => Some "root" | 1 => Some "meta" | 2 => Some "domain"
  | 3 => Some "superkingdom" | 4 => Some "kingdom" | 5 => Some "phylum"
  | 6 => Some "class" | 7 => Some "order" | 8 => Some "family"
  | 9 => Some "genus" | 10 => Some "species" | 11 => Some "strain"
  | _ => None
  end.

(** An [OrderedDict] keyed by one-character strings. *)
Fixpoint od_set (k : ascii) (v : string) (od : list (ascii * string))
  : list (ascii * string) :=
  match od with
  | [] => [(k, v)]
  | (k', v') :: od' =>
      if decide (k' = k) then (k, v) :: od' else (k', v') :: od_set k v od'
  end.

(** [name.replace(" ", "_")] *)
Fixpoint replace_space (s : string) : string :=
  match s with
  | EmptyString => EmptyString
  | String a s' =>
      String (if decide (a = " "%char) then "_"%char else a) (replace_space s')
  end.

Definition fills_slot (depth : nat) : bool :=
  (META <? depth) && (depth <? SUBSPECIES)
  && negb (depth =? SUPERKINGDOM) && negb (depth =? KINGDOM).

(** The [for clade in self.get_path(node)] loop. *)
Fixpoint render (fuel : nat) (pth : list node) (taxonomy : list (ascii * string))
  : M (list (ascii * string)) :=
  match pth with
  | [] => ret taxonomy
  | cl :: rest =>
      depth <- get_depth fuel (RClade cl) ;;
      if fills_slot depth then
        match depths depth with
        | None => raise KeyError
        | Some EmptyString => raise IndexError
        | Some (String c _) =>
            let abb := if decide (c = "d"%char) then "k"%char else c in
            nm <- gets (λ t, clade_name t !! cl) ;;
            match nm with
            | None => raise AttributeError
            | Some s => render fuel rest (od_set abb (replace_space s) taxonomy)
            end
        end
      else render fuel rest taxonomy
  end.

Definition unknown : list (ascii * string) :=
  (λ i, (i, "?")) <$> list_ascii_of_string "kpcofgs".

Definition get_taxonomy (fuel : nat) (nd : option node) : M (list (ascii * string)) :=
  match nd with
  | None => ret unknown
  | Some n =>
      pth <- get_path fuel (Some n) ;;
      match pth with
      | None => raise TypeError
      | Some l => render fuel l unknown
      end
  end.

(** ** OTUs and [parse_blasthits] *)

Record OTU := mkOTU {
  otu_name : string;
  otu_sequence : string;
  otu_classification : option node;
}.

Definition set_classification (c : option node) (o : OTU) : OTU :=
  mkOTU (otu_name o) (otu_sequence o) c.

(** A line of the BLAST table, with the columns the code reads. *)
Record hsp := mkHsp {
  qseqid : string;
  sseqid : string;
  pident : Q;
  bitscore : Q;
}.

Definition Qlt_bool (x y : Q) : bool := negb (Qle_bool y x).

Section parse_blasthits.

(** [hundo.blast.BlastHits] is an external collaborator: a hit set is
    taken through its constructor, its [add] method and its [names] and
    [percent_ids] attributes. *)
Variable BlastHits : Type.
Variable new_hits : Q → BlastHits.
Variable add_hit : BlastHits → string → Q → Q → BlastHits.
Variable hit_names : BlastHits → list string.
Variable percent_ids : BlastHits → list Q.

(** [hsps[q].add(...)] on a [defaultdict], in insertion order. *)
Fixpoint hsps_add (top_fraction : Q) (r : hsp) (hsps : list (string * BlastHits))
  : list (string * BlastHits) :=
  match hsps with
  | [] =>
      [(qseqid r, add_hit (new_hits top_fraction) (sseqid r) (pident r) (bitscore r))]
  | (q, hits) :: hsps' =>
      if decide (q = qseqid r)
      then (q, add_hit hits (sseqid r) (pident r) (bitscore r)) :: hsps'
      else (q, hits) :: hsps_add top_fraction r hsps'
  end.

Definition read_hsps (min_score top_fraction : Q) (blasthits : list hsp)
  : list (string * BlastHits) :=
  foldl (λ hsps r,
           if Qlt_bool (bitscore r) min_score then hsps
           else hsps_add top_fraction r hsps)
        [] blasthits.

(** The threshold [while] loop. *)
Fixpoint climb (fuel : nat) (pids : list Q) (lca_node : option node) : M node :=
  match lca_node with
  | None => raise AttributeError
  | Some n =>
      nm <- gets (λ t, clade_name t !! n) ;;
      amin <- gets (λ t, nm ≫= λ s, assignment_min t !! s) ;;
      match amin with
      | None => ret n
      | Some th =>
          match last pids with
          | None => raise IndexError
          | Some weakest =>
              rt <- gets root ;;
              if Qlt_bool weakest th && negb (bool_decide (n = rt)) then
                match fuel with
                | 0 => diverge
                | S fuel' =>
                    p <- get_parent (RClade n) ;;
                    climb fuel' pids p
                end
              else ret n
          end
      end
  end.

(** The [if euk_filter and ...] statement: the value stored in
    [otu.classification]. *)
Definition euk_filtered (fuel : nat) (euk_filter : bool) (lca_node : node)
  : M (option node) :=
  if euk_filter then
    pth <- get_path fuel (Some lca_node) ;;
    match pth with
    | None => raise TypeError
    | Some l =>
        match l !! 1 with
        | None => raise IndexError
        | Some c =>
            nm <- gets (λ t, clade_name t !! c) ;;
            if bool_decide (nm = Some "Eukaryota") then gets no_hits
            else ret (Some lca_node)
        end
    end
  else ret (Some lca_node).

(** The body of [for otu_name, hits in hsps.items()], after the lookup
    of the OTU. *)
Definition classify (fuel : nat) (euk_filter : bool) (hits : BlastHits)
  : M (option node) :=
  lca_node <- get_common_ancestor fuel (hit_names hits) ;;
  match lca_node with
  | None => logging (DbgNoLCA (hit_names hits)) ;;; gets no_hits
  | Some _ =>
      lca_node <- climb fuel (percent_ids hits) lca_node ;;
      euk_filtered fuel euk_filter lca_node
  end.

Fixpoint classify_all (fuel : nat) (euk_filter : bool)
    (hsps : list (string * BlastHits)) (otus : gmap string OTU)
  : M (gmap string OTU) :=
  match hsps with
  | [] => ret otus
  | (name, hits) :: hsps' =>
      match otus !! name with
      | None => raise KeyError
      | Some otu =>
          c <- classify fuel euk_filter hits ;;
          classify_all fuel euk_filter hsps' (<[name := set_classification c otu]> otus)
      end
  end.

Definition parse_blasthits (fuel : nat) (blasthits : list hsp)
    (otus : gmap string OTU) (min_score top_fraction : Q) (euk_filter : bool)
  : M (gmap string OTU) :=
  classify_all fuel euk_filter (read_hsps min_score top_fraction blasthits) otus.

End parse_blasthits.

(** * Vocabulary of the statements *)

(** ** Lineages: chains of recorded parents *)

(** [chain t p l]: [l] descends from [p] one recorded parent link at a
    time, and never through the root. *)
Fixpoint chain (t : Tree) (p : node) (l : list node) : Prop :=
  match l with
  | [] => True
  | a :: l' => a ≠ root t ∧ parents t !! a = Some (Some p) ∧ chain t a l'
  end.

(** [lineage t n l]: [l] runs from a child of the root down to [n]. *)
Definition lineage (t : Tree) (n : node) (l : list node) : Prop :=
  chain t (root t) l ∧ last l = Some n.

(** ** Climbing *)

(** The clade has a threshold registered under its name, and the weakest
    identity is below it. *)
Definition below_threshold (t : Tree) (weakest : Q) (n : node) : Prop :=
  ∃ s th, clade_name t !! n = Some s ∧ assignment_min t !! s = Some th
          ∧ (weakest < th)%Q.

Definition no_threshold (t : Tree) (n : node) : Prop :=
  ∀ s, clade_name t !! n = Some s → assignment_min t !! s = None.

(** Zero or more moves of the candidate, each one from a clade that is
    below its threshold and is not the root, to what [get_parent] answers
    for it. *)
Inductive climbs (weakest : Q) : node * Tree → node * Tree → Prop :=
| climbs_stay c : climbs weakest c c
| climbs_up n t p t' c :
    below_threshold t weakest n → n ≠ root t →
    get_parent (RClade n) t = Ok (Some p, t') →
    climbs weakest (p, t') c →
    climbs weakest (n, t) c.

(** ** Rendering *)

(** The content of the slot fed by the clades of depth [depth]: the name
    of the clade at that depth of the lineage, or the placeholder. *)
Definition slot (t : Tree) (l : list node) (depth : nat) : string :=
  match l !! (depth - 1) ≫= λ c, clade_name t !! c with
  | Some s => replace_space s
  | None => "?"
  end.

(** The renderer without the monad: what the loop of [get_taxonomy] writes
    for the clades [pth] that sit at depths [above + 1], [above + 2], ... *)
Definition abbreviation (depth : nat) : ascii :=
  match depths depth with
  | Some (String c _) => if decide (c = "d"%char) then "k"%char else c
  | _ => "?"%char
  end.

Fixpoint fill (t : Tree) (above : nat) (pth : list node)
    (taxonomy : list (ascii * string)) : list (ascii * string) :=
  match pth with
  | [] => taxonomy
  | cl :: rest =>
      fill t (S above) rest
        (if fills_slot (S above)
         then od_set (abbreviation (S above))
                     (replace_space (default "" (clade_name t !! cl))) taxonomy
         else taxonomy)
  end.

(** ** The shape of a tree *)

(** The identities of the clades of a tree, and the parent that the walk
    of [get_all_children] records for each of them, in the order of the
    walk. *)
Fixpoint clade_ids (c : clade) : list node :=
  match c with
  | Clade n cs => n :: flat_map clade_ids cs
  end.

Fixpoint tree_parents (c : clade) (parent : option node)
  : list (node * option node) :=
  match c with
  | Clade n cs => flat_map (λ c', tree_parents c' (Some n)) cs ++ [(n, parent)]
  end.

(** The walk of [get_all_children], as a list of assignments to
    [self.parents]. *)
Definition record_all (l : list (node * option node)) (t : Tree) : Tree :=
  foldl (λ t np, set_parent np.1 np.2 t) t l.

(** The tree has distinct clades, and [self.parents] holds what the walk
    records for each of them. *)
Definition recorded (t : Tree) : Prop :=
  NoDup (clade_ids (tree t))
  ∧ ∀ n p, (n, p) ∈ tree_parents (tree t) None → parents t !! n = Some p.

(** The topology, the parents and the sentinel are the same. *)
Definition same_shape (t t' : Tree) : Prop :=
  tree t' = tree t ∧ parents t' = parents t ∧ no_hits t' = no_hits t.

(** * Sample data *)

Module Sample.

(** A reference tree in the CREST layout: root, a meta clade, two
    domains, and ranks below them; clade 8 is an accession leaf. *)
Definition trefile : clade :=
  Clade 0 [Clade 1 [Clade 2 [Clade 4 [Clade 5 [Clade 6 [Clade 8 []]]]];
                    Clade 3 [Clade 7 [Clade 9 []]]]].

Definition names : gmap node string :=
  list_to_map [(0, "root"); (1, "n1"); (2, "n2"); (3, "n3"); (4, "n4");
               (5, "n5"); (6, "n6"); (7, "n7"); (8, "AB123456"); (9, "n9")].

Definition mapfile : list map_row :=
  [MapRow "n1" "Cellular organisms" 0; MapRow "n2" "Bacteria" 80;
   MapRow "n3" "Eukaryota" 80; MapRow "n4" "Bact super" 85;
   MapRow "n5" "Bact kingdom" 88; MapRow "n6" "Proteo bacteria" 90;
   MapRow "n7" "Opisthokonta" 85; MapRow "n9" "Fungi" 88;
   MapRow "AB123456" "AB123456" (-1); MapRow "zz" "Nowhere" 3].

Definition tre : Tree :=
  match __init__ mapfile trefile names with
  | Ok t => t
  | _ => blank trefile names
  end.

(** The same tree, built from an empty map file. *)
Definition bare_tre : Tree :=
  match __init__ [] trefile names with
  | Ok t => t
  | _ => blank trefile names
  end.

(** A tree whose domains hang directly under the root. *)
Definition flat_trefile : clade :=
  Clade 0 [Clade 1 [Clade 2 [Clade 3 []]]].

Definition flat_names : gmap node string :=
  list_to_map [(0, "root"); (1, "n1"); (2, "n2"); (3, "n3")].

Definition flat_mapfile : list map_row :=
  [MapRow "n1" "Eukaryota" 80; MapRow "n2" "Fungi" 85;
   MapRow "n3" "Ascomycota" 90].

Definition flat_tre : Tree :=
  match __init__ flat_mapfile flat_trefile flat_names with
  | Ok t => t
  | _ => blank flat_trefile flat_names
  end.

(** A list-backed stand-in for [BlastHits], enough to run
    [parse_blasthits]: hits are kept in arrival order. *)
Definition hits : Type := list (string * Q).
Definition new_hits (_ : Q) : hits := [].
Definition add_hit (h : hits) (name : string) (pid _ : Q) : hits :=
  h ++ [(name, pid)].
Definition hit_names (h : hits) : list string := h.*1.
Definition percent_ids (h : hits) : list Q := h.*2.

Definition otus : gmap string OTU :=
  list_to_map [("otu1", mkOTU "otu1" "ACGT" None);
               ("otu2", mkOTU "otu2" "GGCC" None)].


(** Two BLAST tables: in the first every query has a hit that passes the
    minimum score, in the second the only hit of otu1 is too weak. *)
Definition blasthits : list hsp :=
  [mkHsp "otu1" "AB123456" 99 200; mkHsp "otu2" "Fungi" 87 300;
   mkHsp "otu2" "Opisthokonta" 87 300].

Definition weak_blasthits : list hsp :=
  [mkHsp "otu1" "AB123456" 99 100; mkHsp "otu2" "Fungi" 89 300].

Definition run (table : list hsp) (euk_filter : bool) : M (gmap string OTU) :=
  parse_blasthits hits new_hits add_hit hit_names percent_ids
    6 table otus 155 (98 # 100) euk_filter.

End Sample.

(** * The rest of the module *)

(** [Tree.get_rank] *)
Definition get_rank (fuel : nat) (r : ref) : M string :=
  depth <- get_depth fuel r ;;
  let depth := if SUBSPECIES <? depth then SUBSPECIES else depth in
  match depths depth with
  | Some rank => ret rank
  | None => raise KeyError
  end.

(** What a query may change in a [Tree]: entries may be added to
    [self.parents] and records to the log; everything else stays. *)
Definition frame (t t' : Tree) : Prop :=
  tree t' = tree t ∧ clade_name t' = clade_name t
  ∧ node_names t' = node_names t ∧ node_ids t' = node_ids t
  ∧ assignment_min t' = assignment_min t ∧ no_hits t' = no_hits t
  ∧ next_clade t' = next_clade t
  ∧ parents t ⊆ parents t' ∧ logged t `prefix_of` logged t'.

Definition keeps {A} (m : M A) : Prop :=
  ∀ t a t', m t = Ok (a, t') → frame t t'.

(** [x] is on the lineage of every clade that one of the names resolves to. *)
Definition on_all (t : Tree) (names : list string) (x : node) : Prop :=
  ∀ name n l, name ∈ names → node_names t !! name = Some n → lineage t n l →
              x ∈ l.

(** * Properties *)

Ltac run := unfold get_parent, verify_node, logging, bind, gets, ret, modify, raise, diverge; simpl.

Lemma get_parent_cached t n p :
  parents t !! n = Some p → get_parent (RClade n) t = Ok (p, t).
Proof. intros H. run. by rewrite H. Qed.

Lemma chain_app t p l1 l2 :
  chain t p (l1 ++ l2) ↔ chain t p l1 ∧ chain t (default p (last l1)) l2.
Proof.
  revert p. induction l1 as [|a l1 IH]; intros p; simpl.
  - tauto.
  - rewrite IH. destruct l1 as [|b l1]; [simpl; tauto|].
    destruct (proj2 (last_is_Some (b :: l1))) as [x Hx]; [done|].
    simpl in *. rewrite Hx. simpl. tauto.
Qed.

Lemma chain_snoc t p l n :
  chain t p (l ++ [n]) ↔
  chain t p l ∧ n ≠ root t ∧ parents t !! n = Some (Some (default p (last l))).
Proof. rewrite chain_app. simpl. tauto. Qed.

Lemma lineage_snoc t l n m :
  lineage t m (l ++ [n]) ↔
  m = n ∧ n ≠ root t ∧ chain t (root t) l
  ∧ parents t !! n = Some (Some (default (root t) (last l))).
Proof.
  unfold lineage. rewrite chain_snoc, last_snoc. split.
  - intros [(? & ? & ?) [= ->]]. auto.
  - intros (-> & ? & ? & ?). auto.
Qed.

Lemma lineage_not_nil t n : ¬ lineage t n [].
Proof. by intros [_ ?]. Qed.

Lemma lineage_not_root t n l : lineage t n l → n ≠ root t.
Proof.
  destruct l as [|a l _] using rev_ind; [by intros ?%lineage_not_nil|].
  rewrite lineage_snoc. by intros (-> & ? & _).
Qed.

Lemma chain_not_root t p l : chain t p l → root t ∉ l.
Proof.
  revert p. induction l as [|a l IH]; intros p; simpl.
  - intros _. apply not_elem_of_nil.
  - intros (? & _ & ?). rewrite not_elem_of_cons. eauto.
Qed.

(** Every non-empty prefix of a lineage is the lineage of its last clade. *)
Lemma lineage_prefix t n l1 a l2 :
  lineage t n (l1 ++ a :: l2) → lineage t a (l1 ++ [a]).
Proof.
  intros [Hc _]. split; [|by rewrite last_snoc].
  change (a :: l2) with ([a] ++ l2) in Hc.
  rewrite app_assoc in Hc. apply chain_app in Hc. tauto.
Qed.

Lemma get_path_loop_lineage t l x acc fuel :
  lineage t x l → length l ≤ fuel →
  get_path_loop fuel (Some x) acc t = Ok (Some (l ++ acc), t).
Proof.
  revert x acc fuel.
  induction l as [|y l IH] using rev_ind; intros x acc fuel.
  { by intros ?%lineage_not_nil. }
  rewrite lineage_snoc, length_app. simpl.
  intros (-> & Hne & Hc & Hp) Hfuel.
  destruct fuel as [|fuel]; [lia|].
  simpl. unfold bind at 1, gets at 1. simpl.
  destruct (decide (y = root t)) as [|_]; [done|].
  unfold bind. rewrite (get_parent_cached _ _ _ Hp).
  destruct l as [|z l _] using rev_ind.
  - simpl. destruct fuel; simpl; unfold bind, gets; simpl;
      by rewrite decide_True.
  - rewrite last_snoc. simpl.
    rewrite (IH z (y :: acc) fuel).
    + by rewrite <- !app_assoc.
    + split; [done|by rewrite last_snoc].
    + lia.
Qed.

Lemma get_path_root t fuel :
  get_path fuel (Some (root t)) t = Ok (Some [root t], t).
Proof. unfold get_path, bind, gets. simpl. by rewrite decide_True. Qed.

Lemma get_path_lineage t n l fuel :
  lineage t n l → length l ≤ S fuel →
  get_path fuel (Some n) t = Ok (Some l, t).
Proof.
  intros Hl Hfuel. pose proof (lineage_not_root _ _ _ Hl) as Hne.
  destruct l as [|y l _] using rev_ind; [by apply lineage_not_nil in Hl|].
  apply lineage_snoc in Hl as (-> & _ & Hc & Hp).
  unfold get_path, bind at 1, gets at 1. simpl.
  rewrite decide_False by done.
  unfold bind. rewrite (get_parent_cached _ _ _ Hp).
  destruct l as [|z l _] using rev_ind.
  - simpl. destruct fuel; simpl; unfold bind, gets; simpl;
      by rewrite decide_True.
  - rewrite last_snoc. simpl.
    rewrite (get_path_loop_lineage t (l ++ [z]) z [y] fuel).
    + done.
    + split; [done|by rewrite last_snoc].
    + rewrite length_app in Hfuel. simpl in Hfuel. lia.
Qed.

Lemma chain_consecutive t p l i a b :
  chain t p l → l !! i = Some a → l !! (S i) = Some b →
  parents t !! b = Some (Some a).
Proof.
  revert p i. induction l as [|x l IH]; intros p i; [done|].
  simpl. intros (_ & _ & Hc) Ha Hb. destruct i as [|i]; simpl in *.
  - injection Ha as ->. destruct l as [|y l]; [done|].
    simpl in *. injection Hb as ->. tauto.
  - eauto.
Qed.

Lemma chain_head t p l a :
  chain t p l → head l = Some a → parents t !! a = Some (Some p).
Proof. destruct l; [done|]. simpl. intros (_ & ? & _) [= ->]. done. Qed.

(** ** The sample trees, as [__init__] builds them *)

Lemma sample_tre_init :
  ∃ t, __init__ Sample.mapfile Sample.trefile Sample.names = Ok t
       ∧ Sample.tre = t.
Proof. eexists. split; vm_compute; reflexivity. Qed.

Lemma sample_lineage_8 : lineage Sample.tre 8 [1; 2; 4; 5; 6; 8].
Proof. vm_compute. repeat split; discriminate. Qed.

Lemma sample_lineage_9 : lineage Sample.tre 9 [1; 3; 7; 9].
Proof. vm_compute. repeat split; discriminate. Qed.

Lemma flat_lineage_3 : lineage Sample.flat_tre 3 [1; 2; 3].
Proof. vm_compute. repeat split; discriminate. Qed.

(** ** C3: [get_path] *)

(** C3, as amended.  [get_path] of the root is the one-element list
    [[root]].  For any other clade whose chain of recorded parents leads
    to the root, [get_path] returns that chain from the child of the root
    down to the clade itself: the root is not on it, the parent of its
    first element is the root, its last element is the clade, and
    consecutive elements are parent and child. *)
Theorem get_path_is_lineage t n l fuel :
  lineage t n l → length l ≤ S fuel →
  get_path fuel (Some (root t)) t = Ok (Some [root t], t)
  ∧ get_path fuel (Some n) t = Ok (Some l, t)
  ∧ (root t ∉ l)
  ∧ (∃ a, head l = Some a ∧ parents t !! a = Some (Some (root t)))
  ∧ last l = Some n
  ∧ (∀ i a b, l !! i = Some a → l !! (S i) = Some b →
              parents t !! b = Some (Some a)).
Proof.
  intros Hl Hfuel. split; [apply get_path_root|].
  split; [by apply get_path_lineage|].
  destruct Hl as [Hc Hlast].
  split; [by eapply chain_not_root|].
  split.
  - destruct l as [|a l]; [done|]. exists a. split; [done|].
    by eapply chain_head.
  - split; [done|]. intros i a b. by eapply chain_consecutive.
Qed.

Lemma get_path_is_lineage_witness :
  get_path 5 (Some 8) Sample.tre = Ok (Some [1; 2; 4; 5; 6; 8], Sample.tre).
Proof.
  apply (get_path_is_lineage Sample.tre 8 [1; 2; 4; 5; 6; 8] 5).
  - vm_compute. repeat split; discriminate.
  - simpl. lia.
Defined.

(** C3, as stated, fails: the path of clade 8 of the sample tree starts
    at clade 1, a child of the root, not at the root. *)
Lemma get_path_first_not_root :
  ∃ l, get_path 5 (Some 8) Sample.tre = Ok (Some l, Sample.tre)
       ∧ lineage Sample.tre 8 l
       ∧ head l = Some 1 ∧ head l ≠ Some (root Sample.tre).
Proof.
  exists [1; 2; 4; 5; 6; 8]. split; [vm_compute; reflexivity|].
  split; [apply sample_lineage_8|]. split; [done|]. vm_compute. discriminate.
Qed.

(** ** C6: threshold climbing *)

Lemma Qlt_bool_iff x y : Qlt_bool x y = true ↔ (x < y)%Q.
Proof.
  unfold Qlt_bool. rewrite negb_true_iff, <- not_true_iff_false, Qle_bool_iff.
  split; [apply Qnot_le_lt|apply Qlt_not_le].
Qed.

Lemma threshold_lookup t n :
  (clade_name t !! n ≫= λ s, assignment_min t !! s) = None ↔ no_threshold t n.
Proof.
  unfold no_threshold. destruct (clade_name t !! n) as [s|]; simpl.
  - split; [by intros ? ? [= <-]|auto].
  - split; [by intros _ ? [=]|done].
Qed.

Lemma climb_no_threshold fuel pids t n :
  no_threshold t n → climb fuel pids (Some n) t = Ok (n, t).
Proof.
  intros H%threshold_lookup.
  destruct fuel; simpl; unfold bind, gets, ret; simpl; by rewrite H.
Qed.

Lemma climb_root fuel pids w t :
  last pids = Some w → climb fuel pids (Some (root t)) t = Ok (root t, t).
Proof.
  intros Hw. destruct fuel; simpl; unfold bind, gets, ret; simpl;
    destruct (_ ≫= _); try done; rewrite Hw;
    rewrite bool_decide_eq_true_2 by done; by rewrite andb_false_r.
Qed.

(** What a finished climb has done, and where it has stopped. *)
Lemma climb_sound fuel pids w n t m t' :
  last pids = Some w →
  climb fuel pids (Some n) t = Ok (m, t') →
  climbs w (n, t) (m, t') ∧ ¬ (below_threshold t' w m ∧ m ≠ root t').
Proof.
  intros Hw. revert n t.
  assert (Hrest : ∀ n t,
    (clade_name t !! n ≫= λ s, assignment_min t !! s) = None →
    ¬ (below_threshold t w n ∧ n ≠ root t)).
  { intros n t Hnone [(s & th & Hs & Hth & _) _].
    rewrite Hs in Hnone. simpl in Hnone. congruence. }
  assert (Hstop : ∀ n t th,
    (clade_name t !! n ≫= λ s, assignment_min t !! s) = Some th →
    Qlt_bool w th && negb (bool_decide (n = root t)) = false →
    ¬ (below_threshold t w n ∧ n ≠ root t)).
  { intros n t th Hsome Hb [(s & th' & Hs & Hth & Hlt) Hne].
    rewrite Hs in Hsome. simpl in Hsome. rewrite Hth in Hsome.
    injection Hsome as ->. apply Qlt_bool_iff in Hlt.
    rewrite Hlt, bool_decide_eq_false_2 in Hb by done. done. }
  induction fuel as [|fuel IH]; intros n t; simpl; unfold bind, gets, ret; simpl.
  - destruct (_ ≫= _) as [th|] eqn:Hth.
    + rewrite Hw. destruct (_ && _) eqn:Hb; [done|].
      intros [= <- <-]. split; [constructor|eauto].
    + intros [= <- <-]. split; [constructor|eauto].
  - destruct (_ ≫= _) as [th|] eqn:Hth.
    + rewrite Hw. destruct (_ && _) eqn:Hb.
      * apply andb_true_iff in Hb as [Hlt Hne].
        apply Qlt_bool_iff in Hlt.
        apply negb_true_iff, bool_decide_eq_false in Hne.
        destruct (get_parent (RClade n) t) as [[p t1]| |] eqn:Hp; try done.
        destruct p as [p|]; [|destruct fuel; simpl; unfold raise; done].
        intros Hclimb. destruct (IH _ _ Hclimb) as [Hc Hr].
        split; [|done]. eapply climbs_up; [|done|done|done].
        destruct (clade_name t !! n) as [s|] eqn:Hs; simpl in Hth; [|done].
        by exists s, th.
      * intros [= <- <-]. split; [constructor|eauto].
    + intros [= <- <-]. split; [constructor|eauto].
Qed.

(** With the parents recorded up to the root, the climb returns, on the
    lineage or at the root. *)
Lemma climb_lineage fuel pids w t n l :
  last pids = Some w → lineage t n l → length l ≤ fuel →
  ∃ m, climb fuel pids (Some n) t = Ok (m, t) ∧ (m = root t ∨ m ∈ l).
Proof.
  intros Hw. revert n fuel.
  induction l as [|y l IH] using rev_ind; intros n fuel.
  { by intros ?%lineage_not_nil. }
  rewrite lineage_snoc, length_app. simpl.
  intros (-> & Hne & Hc & Hp) Hfuel.
  destruct fuel as [|fuel]; [lia|].
  simpl. unfold bind, gets, ret. simpl.
  assert (Hy : y ∈ l ++ [y]).
  { apply elem_of_app. right. by apply list_elem_of_singleton. }
  destruct (_ ≫= _) as [th|]; [|exists y; split; [done|by right]].
  rewrite Hw. destruct (_ && _); [|exists y; split; [done|by right]].
  rewrite (get_parent_cached _ _ _ Hp).
  destruct l as [|z l _] using rev_ind.
  - simpl. exists (root t). split; [|by left].
    by eapply climb_root.
  - rewrite last_snoc. simpl.
    destruct (IH z fuel) as (m & Hm & Hin).
    + split; [done|by rewrite last_snoc].
    + lia.
    + exists m. split; [done|]. destruct Hin; [by left|right].
      apply elem_of_app. by left.
Qed.

(** C6.  Whatever the starting clade and the weakest identity: a climb
    that starts at the root stays at the root; a climb that starts at a
    clade with no registered threshold returns it unmoved; a finished
    climb has only moved from clades that had a registered threshold
    above the weakest identity and were not the root, each time to the
    parent, and has stopped at a clade that is the root or is not below a
    threshold; and when the parents are recorded up to the root the climb
    does finish, on the lineage of the starting clade or at the root. *)
Theorem climb_never_past_root t pids w :
  last pids = Some w →
  (∀ fuel, climb fuel pids (Some (root t)) t = Ok (root t, t))
  ∧ (∀ fuel n, no_threshold t n → climb fuel pids (Some n) t = Ok (n, t))
  ∧ (∀ fuel n m t', climb fuel pids (Some n) t = Ok (m, t') →
       climbs w (n, t) (m, t') ∧ ¬ (below_threshold t' w m ∧ m ≠ root t'))
  ∧ (∀ fuel n l, lineage t n l → length l ≤ fuel →
       ∃ m, climb fuel pids (Some n) t = Ok (m, t) ∧ (m = root t ∨ m ∈ l)).
Proof.
  intros Hw. repeat split.
  - intros. by eapply climb_root.
  - intros. by apply climb_no_threshold.
  - by eapply climb_sound.
  - by eapply climb_sound.
  - intros. by eapply climb_lineage.
Qed.

Lemma climb_never_past_root_witness :
  ∃ m, climb 6 [95%Q; 89%Q] (Some 8) Sample.tre = Ok (m, Sample.tre)
       ∧ (m = root Sample.tre ∨ m ∈ [1; 2; 4; 5; 6; 8]).
Proof.
  destruct (climb_never_past_root Sample.tre [95%Q; 89%Q] 89%Q eq_refl)
    as (_ & _ & _ & H).
  apply (H 6 8 [1; 2; 4; 5; 6; 8]).
  - vm_compute. repeat split; discriminate.
  - simpl. lia.
Defined.

(** ** C2 and C9: the eukaryote filter *)

Lemma euk_filtered_path fuel n t l t' :
  get_path fuel (Some n) t = Ok (Some l, t') →
  euk_filtered fuel true n t =
    match l !! 1 with
    | None => Raise IndexError
    | Some c =>
        Ok (if bool_decide (clade_name t' !! c = Some "Eukaryota")
            then no_hits t' else Some n, t')
    end.
Proof.
  intros Hp. unfold euk_filtered, bind. rewrite Hp.
  destruct (l !! 1) as [c|]; [|done].
  unfold gets, ret. by destruct (bool_decide _).
Qed.

Lemma get_path_child_of_root fuel t n :
  n ≠ root t → parents t !! n = Some (Some (root t)) →
  get_path fuel (Some n) t = Ok (Some [n], t).
Proof.
  intros Hne Hp. apply get_path_lineage; [|simpl; lia].
  split; [|done]. simpl. auto.
Qed.

(** C2, as amended.  With the filter enabled, and a climbed clade whose
    recorded parents lead to the root through at least two clades, the
    stored classification is the no-hits sentinel exactly when the second
    element of [get_path]'s result is named "Eukaryota", and the climbed
    clade otherwise.  That element is not a child of the root: [get_path]
    leaves the root out, so it is the ancestor two levels below the root
    (a grandchild of the root).  With the filter disabled the climbed
    clade is stored. *)
Theorem euk_filter_second_of_path t n l fuel c :
  lineage t n l → length l ≤ S fuel → l !! 1 = Some c →
  euk_filtered fuel true n t =
    Ok (if bool_decide (clade_name t !! c = Some "Eukaryota")
        then no_hits t else Some n, t)
  ∧ (∃ a, parents t !! c = Some (Some a)
          ∧ parents t !! a = Some (Some (root t)) ∧ a ≠ root t)
  ∧ euk_filtered fuel false n t = Ok (Some n, t).
Proof.
  intros Hl Hfuel Hc. split; [|split; [|done]].
  - rewrite (euk_filtered_path fuel n t l t); [by rewrite Hc|].
    by apply get_path_lineage.
  - destruct Hl as [Hch _].
    destruct l as [|a [|c' l]]; try done. simpl in Hc. injection Hc as ->.
    simpl in Hch. exists a. tauto.
Qed.

Lemma euk_filter_second_of_path_witness :
  euk_filtered 5 true 9 Sample.tre = Ok (no_hits Sample.tre, Sample.tre).
Proof.
  apply (euk_filter_second_of_path Sample.tre 9 [1; 3; 7; 9] 5 3).
  - vm_compute. repeat split; discriminate.
  - simpl. lia.
  - reflexivity.
Defined.

(** C2, as stated, fails in both directions.  In the flat sample tree the
    child of the root above clade 3 is named "Eukaryota", and clade 3 is
    stored unchanged; in the CREST-shaped sample tree the child of the
    root above clade 9 is "Cellular organisms", and the classification is
    overridden to the sentinel. *)
Lemma euk_filter_not_top_level :
  (parents Sample.flat_tre !! 1 = Some (Some (root Sample.flat_tre))
   ∧ clade_name Sample.flat_tre !! 1 = Some "Eukaryota"
   ∧ get_path 5 (Some 3) Sample.flat_tre = Ok (Some [1; 2; 3], Sample.flat_tre)
   ∧ euk_filtered 5 true 3 Sample.flat_tre = Ok (Some 3, Sample.flat_tre)
   ∧ no_hits Sample.flat_tre ≠ Some 3)
  ∧ (parents Sample.tre !! 1 = Some (Some (root Sample.tre))
     ∧ clade_name Sample.tre !! 1 = Some "Cellular organisms"
     ∧ get_path 5 (Some 9) Sample.tre = Ok (Some [1; 3; 7; 9], Sample.tre)
     ∧ euk_filtered 5 true 9 Sample.tre = Ok (no_hits Sample.tre, Sample.tre)
     ∧ no_hits Sample.tre ≠ Some 9).
Proof. repeat split; vm_compute; (reflexivity || discriminate). Qed.

(** C9.  With the filter enabled, once [get_path] has answered with a
    path, the access to its index 1 succeeds exactly when the path has at
    least two elements, and raises [IndexError] otherwise; this is what
    happens for the root and for every child of the root, whose paths
    have one element. *)
Theorem euk_filter_index t :
  (∀ fuel n l t', get_path fuel (Some n) t = Ok (Some l, t') →
     ((∃ r, euk_filtered fuel true n t = Ok r) ↔ 2 ≤ length l)
     ∧ (length l < 2 → euk_filtered fuel true n t = Raise IndexError))
  ∧ (∀ fuel, euk_filtered fuel true (root t) t = Raise IndexError)
  ∧ (∀ fuel n, n ≠ root t → parents t !! n = Some (Some (root t)) →
       euk_filtered fuel true n t = Raise IndexError).
Proof.
  split; [|split].
  - intros fuel n l t' Hp. rewrite (euk_filtered_path _ _ _ _ _ Hp).
    destruct (l !! 1) as [c|] eqn:Hc.
    + apply lookup_lt_Some in Hc. split; [|lia]. split; [done|eauto].
    + apply lookup_ge_None in Hc. split; [|done].
      split; [by intros [? ?]|lia].
  - intros fuel. by rewrite (euk_filtered_path _ _ _ _ _ (get_path_root t fuel)).
  - intros fuel n Hne Hp.
    by rewrite (euk_filtered_path _ _ _ _ _ (get_path_child_of_root fuel t n Hne Hp)).
Qed.

Lemma euk_filter_index_witness :
  euk_filtered 5 true 1 Sample.tre = Raise IndexError
  ∧ euk_filtered 5 true (root Sample.tre) Sample.tre = Raise IndexError
  ∧ ((∃ r, euk_filtered 5 true 9 Sample.tre = Ok r) ↔ 2 ≤ length [1; 3; 7; 9]).
Proof.
  destruct (euk_filter_index Sample.tre) as (Hpath & Hroot & Hchild).
  split; [|split].
  - apply Hchild; [vm_compute; discriminate|vm_compute; reflexivity].
  - apply Hroot.
  - apply (Hpath 5 9 [1; 3; 7; 9] Sample.tre). vm_compute. reflexivity.
Defined.

(** ** C4 and C7: the rows of the map file, and [add_node] *)

Lemma is_accession_examples :
  is_accession <$> ["AB123456"; "A12345"; "ABCD123456789"; "ABCD12345678";
                    "Bacteria"; "AB1234567"; "1B123456"; "No hits"]
  = [true; true; true; true; false; false; false; false].
Proof. reflexivity. Qed.

(** C4, as amended.  A row whose [node_id] is in the tree registers its
    name in the name index.  The clade is renamed, and the cutoff
    recorded under the name, exactly when the cutoff is not negative and
    the name matches none of the four accession patterns; with a negative
    cutoff, or with an accession name, names and thresholds stay as they
    were. *)
Theorem read_row_found r t n :
  node_ids t !! row_node_id r = Some n →
  ∃ t', read_row r t = Ok (tt, t')
    ∧ node_names t' = <[row_name r := n]> (node_names t)
    ∧ ((0 <= row_cutoff r)%Q ∧ is_accession (row_name r) = false →
         clade_name t' = <[n := row_name r]> (clade_name t)
         ∧ assignment_min t' = <[row_name r := row_cutoff r]> (assignment_min t))
    ∧ (¬ (0 <= row_cutoff r)%Q ∨ is_accession (row_name r) = true →
         clade_name t' = clade_name t ∧ assignment_min t' = assignment_min t).
Proof.
  intros Hn. unfold read_row, bind, gets, modify, ret. simpl. rewrite Hn.
  destruct (Qle_bool 0 (row_cutoff r)) eqn:Hc;
    destruct (is_accession (row_name r)) eqn:Ha; simpl;
    eexists; (split; [reflexivity|]); simpl; (split; [reflexivity|]);
    try apply Qle_bool_iff in Hc.
  - split; [by intros [_ ?]|done].
  - split; [done|]. intros [?|?]; done.
  - assert (¬ (0 <= row_cutoff r)%Q).
    { rewrite <- Qle_bool_iff. congruence. }
    split; [by intros [? _]|done].
  - assert (¬ (0 <= row_cutoff r)%Q).
    { rewrite <- Qle_bool_iff. congruence. }
    split; [by intros [? _]|done].
Qed.

Lemma read_row_found_witness :
  ∃ t', read_row (MapRow "n2" "Bacteria" 80) Sample.bare_tre = Ok (tt, t')
        ∧ node_names t' !! "Bacteria" = Some 2
        ∧ clade_name t' !! 2 = Some "Bacteria"
        ∧ assignment_min t' !! "Bacteria" = Some 80%Q.
Proof.
  destruct (read_row_found (MapRow "n2" "Bacteria" 80) Sample.bare_tre 2)
    as (t' & Hrun & Hnames & Hyes & _); [vm_compute; reflexivity|].
  exists t'. split; [exact Hrun|].
  destruct Hyes as [Hcn Ham]; [split; [discriminate|reflexivity]|].
  rewrite Hnames, Hcn, Ham. repeat split; apply lookup_insert_eq.
Defined.

(** C4, as stated, fails: the row [n2, Bacteria, -1] has a name that is
    no accession and a negative cutoff; the name is indexed, but clade 2
    keeps its name and no threshold is recorded. *)
Lemma read_row_negative_cutoff :
  ∃ t', read_row (MapRow "n2" "Bacteria" (-1)) Sample.bare_tre = Ok (tt, t')
        ∧ is_accession "Bacteria" = false
        ∧ node_names t' !! "Bacteria" = Some 2
        ∧ clade_name t' !! 2 = Some "n2"
        ∧ assignment_min t' !! "Bacteria" = None.
Proof. eexists. split; [vm_compute; reflexivity|]. repeat split. Qed.

(** C7, as amended.  [add_node] with a name that is already in the name
    index logs the conflict, returns nothing and changes nothing else: the
    name stays bound to the clade it had.  A row of the map file with
    such a name is not checked: when its [node_id] is in the tree the
    name is re-bound to the clade of the row, and nothing is logged. *)
Theorem registered_name_again t nodename n :
  node_names t !! nodename = Some n →
  (∀ parent amin,
     add_node nodename parent amin t = Ok (None, add_log (ErrNotUnique nodename) t)
     ∧ node_names (add_log (ErrNotUnique nodename) t) !! nodename = Some n)
  ∧ (∀ r m, row_name r = nodename → node_ids t !! row_node_id r = Some m →
       ∃ t', read_row r t = Ok (tt, t')
             ∧ node_names t' !! nodename = Some m ∧ logged t' = logged t).
Proof.
  intros Hn. split.
  - intros parent amin. split; [|done].
    unfold add_node, bind, gets, logging, modify, ret. simpl. by rewrite Hn.
  - intros r m <- Hm. unfold read_row, bind, gets, modify, ret. simpl.
    rewrite Hm. destruct (_ && _); simpl; eexists;
      (split; [reflexivity|]); simpl; (split; [apply lookup_insert_eq|done]).
Qed.

Lemma registered_name_again_witness :
  add_node "Bacteria" (RClade 0) 0 Sample.tre
  = Ok (None, add_log (ErrNotUnique "Bacteria") Sample.tre)
  ∧ ∃ t', read_row (MapRow "n3" "Bacteria" 80) Sample.tre = Ok (tt, t')
          ∧ node_names t' !! "Bacteria" = Some 3
          ∧ logged t' = logged Sample.tre.
Proof.
  destruct (registered_name_again Sample.tre "Bacteria" 2) as [Hadd Hrow];
    [vm_compute; reflexivity|].
  split; [apply Hadd|].
  apply (Hrow (MapRow "n3" "Bacteria" 80) 3); vm_compute; reflexivity.
Defined.

(** C7, as stated, fails: with two rows of the same name, the second one
    takes the name over from the first, and the log stays empty. *)
Lemma second_row_takes_name :
  ∃ t1 t2,
    read_row (MapRow "n2" "Bacteria" 80) Sample.bare_tre = Ok (tt, t1)
    ∧ node_names t1 !! "Bacteria" = Some 2
    ∧ read_row (MapRow "n3" "Bacteria" 80) t1 = Ok (tt, t2)
    ∧ node_names t2 !! "Bacteria" = Some 3
    ∧ logged t2 = [].
Proof.
  do 2 eexists. split; [vm_compute; reflexivity|].
  split; [reflexivity|]. split; [vm_compute; reflexivity|]. by split.
Qed.

(** ** C1: names that do not resolve *)

Lemma get_path_None fuel t :
  ∃ t', get_path fuel None t = Ok (None, t').
Proof. eexists. reflexivity. Qed.

Lemma get_parent_no_raise r t e : get_parent r t ≠ Raise e.
Proof.
  destruct r as [n|nn|]; run.
  - destruct (parents t !! n); [done|].
    destruct (phylo_get_path (tree t) n) as [l|]; [|done].
    by destruct (rev l) as [|? [|? ?]].
  - destruct (node_names t !! nn) as [n|]; simpl; [|done].
    destruct (parents t !! n); [done|].
    destruct (phylo_get_path (tree t) n) as [l|]; [|done].
    by destruct (rev l) as [|? [|? ?]].
  - done.
Qed.

Lemma get_path_loop_no_raise fuel parent plist t e :
  get_path_loop fuel parent plist t ≠ Raise e.
Proof.
  revert parent plist t. induction fuel as [|fuel IH]; intros [p|] plist t;
    simpl; unfold bind, gets, ret; simpl; try done;
    destruct (decide (p = root t)); try done.
  destruct (get_parent (RClade p) t) as [[p' t']| |] eqn:Hp; [apply IH| |done].
  by apply get_parent_no_raise in Hp.
Qed.

Lemma get_path_no_raise fuel nd t e : get_path fuel nd t ≠ Raise e.
Proof.
  destruct nd as [n|]; [|done]. unfold get_path, bind, gets, ret. simpl.
  destruct (decide (n = root t)); [done|].
  destruct (get_parent (RClade n) t) as [[p' t']| |] eqn:Hp;
    [apply get_path_loop_no_raise| |done].
  by apply get_parent_no_raise in Hp.
Qed.

Lemma get_paths_None fuel nodes t ps t' :
  None ∈ nodes → get_paths fuel nodes t = Ok (ps, t') → all_paths ps = None.
Proof.
  revert t ps. induction nodes as [|n nodes IH]; intros t ps Hin.
  { by apply not_elem_of_nil in Hin. }
  simpl. unfold bind at 1.
  destruct (get_path fuel n t) as [[p t1]| |] eqn:Hp; try done.
  unfold bind, ret.
  destruct (get_paths fuel nodes t1) as [[ps1 t2]| |] eqn:Hps; try done.
  intros [= <- <-]. apply elem_of_cons in Hin as [<-|Hin].
  - destruct (get_path_None fuel t) as [t3 H3]. rewrite H3 in Hp.
    by injection Hp as <- <-.
  - simpl. destruct p; [|done]. by rewrite (IH _ _ Hin Hps).
Qed.

Lemma get_paths_no_raise fuel nodes t e : get_paths fuel nodes t ≠ Raise e.
Proof.
  revert t e. induction nodes as [|n nodes IH]; intros t e; [done|].
  simpl. unfold bind at 1.
  destruct (get_path fuel n t) as [[p t1]| |] eqn:Hp; [| |done].
  - unfold bind, ret.
    destruct (get_paths fuel nodes t1) as [[ps1 t2]| |] eqn:Hps; try done.
    by apply IH in Hps.
  - by apply get_path_no_raise in Hp.
Qed.

(** A list of names with one that resolves and one that does not never
    gets an answer from [get_common_ancestor]: [len] of the path of the
    unresolved name raises [TypeError] (unless a path loop runs forever
    first). *)
Lemma lca_mixed_names fuel names t r u :
  r ∈ names → u ∈ names →
  is_Some (node_names t !! r) → node_names t !! u = None →
  get_common_ancestor fuel names t = Raise TypeError
  ∨ get_common_ancestor fuel names t = Diverge.
Proof.
  intros Hr Hu [x Hx] Hnone.
  remember (get_common_ancestor fuel names t) as o eqn:Ho.
  unfold get_common_ancestor, bind at 1, gets at 1 in Ho. simpl in Ho.
  set (nodes := remove_dups _) in Ho.
  assert (HN : None ∈ nodes).
  { apply elem_of_remove_dups, list_elem_of_fmap. by exists u. }
  assert (HS : Some x ∈ nodes).
  { apply elem_of_remove_dups, list_elem_of_fmap. by exists r. }
  clearbody nodes. destruct nodes as [|a [|b nodes']].
  - by apply not_elem_of_nil in HN.
  - apply list_elem_of_singleton in HN, HS. congruence.
  - unfold bind at 1 in Ho.
    destruct (get_paths fuel (a :: b :: nodes') t) as [[ps t1]| |] eqn:Hps.
    + rewrite (get_paths_None _ _ _ _ _ HN Hps) in Ho. by left.
    + by apply get_paths_no_raise in Hps.
    + by right.
Qed.

(** C1 at the failing input: "AB123456" resolves to clade 8 of the sample
    tree and "zzz" to nothing; [get_common_ancestor] raises [TypeError]
    where the claim wants a result without classification. *)
Theorem lca_unresolved_name_raises :
  node_names Sample.tre !! "AB123456" = Some 8
  ∧ node_names Sample.tre !! "zzz" = None
  ∧ get_common_ancestor 5 ["AB123456"; "zzz"] Sample.tre = Raise TypeError
  ∧ ∃ t', get_common_ancestor 5 ["zzz"] Sample.tre = Ok (None, t').
Proof. repeat split; try (vm_compute; reflexivity). eexists. vm_compute. reflexivity. Qed.


(** ** C10 and C5: what [parse_blasthits] does to the OTUs *)

Lemma hsps_add_keys {BlastHits} new_hits add_hit top r
    (hsps : list (string * BlastHits)) k :
  k ∈ (hsps_add BlastHits new_hits add_hit top r hsps).*1 →
  k = qseqid r ∨ k ∈ hsps.*1.
Proof.
  induction hsps as [|[q h] hsps IH]; simpl.
  - intros ?%list_elem_of_singleton. by left.
  - destruct (decide (q = qseqid r)) as [->|]; simpl.
    + rewrite !elem_of_cons. tauto.
    + rewrite !elem_of_cons. tauto.
Qed.

Lemma read_hsps_keys {BlastHits} new_hits add_hit min_score top blasthits k :
  k ∈ (read_hsps BlastHits new_hits add_hit min_score top blasthits).*1 →
  ∃ r, r ∈ blasthits ∧ qseqid r = k ∧ ¬ (bitscore r < min_score)%Q.
Proof.
  unfold read_hsps.
  assert (Hgen : ∀ acc,
    k ∈ (foldl (λ hsps r,
                  if Qlt_bool (bitscore r) min_score then hsps
                  else hsps_add BlastHits new_hits add_hit top r hsps)
               acc blasthits).*1 →
    k ∈ acc.*1
    ∨ ∃ r, r ∈ blasthits ∧ qseqid r = k ∧ ¬ (bitscore r < min_score)%Q).
  { induction blasthits as [|r rs IH]; intros acc; simpl; [by left|].
    intros Hk. destruct (IH _ Hk) as [Hacc|(r' & ? & ? & ?)].
    - destruct (Qlt_bool (bitscore r) min_score) eqn:Hlt; [by left|].
      apply hsps_add_keys in Hacc as [->|?]; [|by left].
      right. exists r. split; [apply elem_of_cons; by left|]. split; [done|].
      rewrite <- Qlt_bool_iff. congruence.
    - right. exists r'. split; [apply elem_of_cons; by right|done]. }
  intros Hk. destruct (Hgen [] Hk) as [Hnil|?]; [|done].
  by apply not_elem_of_nil in Hnil.
Qed.

Lemma classify_all_frame {BlastHits} hit_names percent_ids fuel euk
    (hsps : list (string * BlastHits)) otus t otus' t' :
  classify_all BlastHits hit_names percent_ids fuel euk hsps otus t = Ok (otus', t') →
  dom otus' = dom otus
  ∧ ∀ k o, otus !! k = Some o →
      ∃ o', otus' !! k = Some o'
            ∧ otu_name o' = otu_name o ∧ otu_sequence o' = otu_sequence o
            ∧ (k ∉ hsps.*1 → o' = o).
Proof.
  revert otus t. induction hsps as [|[name hits] hsps IH]; intros otus t; simpl.
  - unfold ret. intros [= <- <-]. split; [done|]. intros k o Hk. by exists o.
  - destruct (otus !! name) as [otu|] eqn:Hotu; [|done].
    unfold bind at 1.
    destruct (classify _ _ _ _ _ _ t) as [[c t1]| |]; try done.
    intros Hrest. destruct (IH _ _ Hrest) as [Hdom Hframe]. split.
    + rewrite Hdom. apply dom_insert_lookup_L. by exists otu.
    + intros k o Hk. destruct (decide (name = k)) as [->|Hne].
      * destruct (Hframe k (set_classification c otu)) as (o' & ? & ? & ? & _);
          [apply lookup_insert_eq|].
        exists o'. assert (o = otu) as -> by congruence.
        repeat split; try done. intros Hnot. exfalso. apply Hnot.
        apply elem_of_cons. by left.
      * destruct (Hframe k o) as (o' & ? & ? & ? & Hsame);
          [by rewrite lookup_insert_ne|].
        exists o'. repeat split; try done. intros Hnot. apply Hsame.
        intros ?. apply Hnot. apply elem_of_cons. by right.
Qed.

(** C10.  When [parse_blasthits] returns, the collection has the keys it
    had, and every OTU has the name and the sequence it had: only
    [classification] may differ. *)
Theorem parse_blasthits_frame {BlastHits} new_hits add_hit hit_names percent_ids
    fuel blasthits otus min_score top_fraction euk_filter t otus' t' :
  parse_blasthits BlastHits new_hits add_hit hit_names percent_ids
    fuel blasthits otus min_score top_fraction euk_filter t = Ok (otus', t') →
  dom otus' = dom otus
  ∧ ∀ k o, otus !! k = Some o →
      ∃ o', otus' !! k = Some o'
            ∧ otu_name o' = otu_name o ∧ otu_sequence o' = otu_sequence o.
Proof.
  unfold parse_blasthits. intros [Hdom Hframe]%classify_all_frame.
  split; [done|]. intros k o Hk.
  destruct (Hframe k o Hk) as (o' & ? & ? & ? & _). by exists o'.
Qed.

Lemma parse_blasthits_frame_witness :
  ∃ otus' t', Sample.run Sample.blasthits true Sample.tre = Ok (otus', t')
              ∧ dom otus' = dom Sample.otus.
Proof.
  destruct (Sample.run Sample.blasthits true Sample.tre) as [[otus' t']| |] eqn:H;
    [|vm_compute in H; discriminate..].
  exists otus', t'. split; [reflexivity|].
  apply (parse_blasthits_frame _ _ _ _ _ _ _ _ _ _ _ _ _ H).
Defined.

Lemma unknown_slots :
  unknown = [("k"%char, "?"); ("p"%char, "?"); ("c"%char, "?"); ("o"%char, "?");
             ("f"%char, "?"); ("g"%char, "?"); ("s"%char, "?")].
Proof. reflexivity. Qed.

(** C5, as amended.  A query none of whose alignment records reaches the
    minimum bit score gets no hit set at all, and [parse_blasthits] does
    not visit it: its OTU is left as it was, so a classification that was
    unset ([None]) stays unset, it is not replaced by the no-hits sentinel
    clade.  Rendering an unset classification gives the seven slots
    k, p, c, o, f, g, s, all equal to the placeholder "?". *)
Theorem unhit_query_stays_unset {BlastHits} new_hits add_hit hit_names percent_ids
    fuel blasthits otus min_score top_fraction euk_filter t otus' t' q :
  (∀ r, r ∈ blasthits → qseqid r = q → (bitscore r < min_score)%Q) →
  parse_blasthits BlastHits new_hits add_hit hit_names percent_ids
    fuel blasthits otus min_score top_fraction euk_filter t = Ok (otus', t') →
  otus' !! q = otus !! q
  ∧ (∀ o, otus !! q = Some o → otu_classification o = None →
       otu_classification <$> otus' !! q = Some None)
  ∧ get_taxonomy fuel None t' =
      Ok ([("k"%char, "?"); ("p"%char, "?"); ("c"%char, "?"); ("o"%char, "?");
           ("f"%char, "?"); ("g"%char, "?"); ("s"%char, "?")], t').
Proof.
  intros Hweak Hrun. unfold parse_blasthits in Hrun.
  apply classify_all_frame in Hrun as [Hdom Hframe].
  assert (Hq : q ∉ (read_hsps BlastHits new_hits add_hit min_score
                      top_fraction blasthits).*1).
  { intros (r & Hr & Hqr & Hnot)%read_hsps_keys. apply Hnot. by apply Hweak. }
  assert (Hsame : otus' !! q = otus !! q).
  { destruct (otus !! q) as [o|] eqn:Ho.
    - destruct (Hframe q o Ho) as (o' & Ho' & _ & _ & Heq).
      rewrite Ho'. f_equal. by apply Heq.
    - apply not_elem_of_dom. rewrite Hdom. by apply not_elem_of_dom. }
  split; [done|]. split; [|done].
  intros o Ho Hc. by rewrite Hsame, Ho, <- Hc.
Qed.

Lemma unhit_query_stays_unset_witness :
  otu_classification <$>
    (<["otu2" := mkOTU "otu2" "GGCC" (Some 9)]> Sample.otus) !! "otu1"
  = Some None.
Proof.
  destruct (unhit_query_stays_unset Sample.new_hits Sample.add_hit
              Sample.hit_names Sample.percent_ids 6 Sample.weak_blasthits
              Sample.otus 155 (98 # 100) false Sample.tre
              (<["otu2" := mkOTU "otu2" "GGCC" (Some 9)]> Sample.otus)
              Sample.tre "otu1") as (_ & Hunset & _).
  - intros r Hr Hq. unfold Sample.weak_blasthits in Hr.
    apply elem_of_cons in Hr as [->|Hr]; [reflexivity|].
    apply list_elem_of_singleton in Hr as ->. discriminate.
  - vm_compute. reflexivity.
  - apply (Hunset (mkOTU "otu1" "ACGT" None)); reflexivity.
Defined.

(** C5, as stated, fails: the only record of otu1 has bit score 100,
    below the minimum 155; after [parse_blasthits] its classification is
    still [None], and the sentinel of the tree is clade 10. *)
Lemma unhit_query_not_sentinel :
  Sample.run Sample.weak_blasthits false Sample.tre
  = Ok (<["otu2" := mkOTU "otu2" "GGCC" (Some 9)]> Sample.otus, Sample.tre)
  ∧ otu_classification <$>
      (<["otu2" := mkOTU "otu2" "GGCC" (Some 9)]> Sample.otus) !! "otu1"
    = Some None
  ∧ no_hits Sample.tre = Some 10
  ∧ Some None ≠ Some (no_hits Sample.tre).
Proof. repeat split; vm_compute; (reflexivity || discriminate). Qed.

(** ** C8: rendering *)

Lemma get_depth_lineage t a l fuel :
  lineage t a l → length l ≤ S fuel →
  get_depth fuel (RClade a) t = Ok (length l, t).
Proof.
  intros Hl Hfuel. cbv [get_depth verify_node bind ret].
  rewrite (get_path_lineage _ _ _ _ Hl Hfuel). cbv [gets].
  destruct Hl as [Hc _]. apply chain_not_root in Hc.
  rewrite (bool_decide_eq_false_2 (l !! 0 = Some (root t))).
  - by rewrite andb_false_r.
  - intros H0. apply Hc. by eapply list_elem_of_lookup_2.
Qed.

Lemma fills_slot_depths d :
  fills_slot d = true → d ∈ [DOMAIN; PHYLUM; CLASS; ORDER; FAMILY; GENUS; SPECIES].
Proof.
  do 11 (destruct d as [|d]; [try discriminate; intros _; set_solver|]).
  unfold fills_slot, SUBSPECIES. simpl.
  replace (S (S (S (S (S (S (S (S (S (S (S d)))))))))) <? 11) with false;
    [discriminate|].
  symmetry. apply Nat.ltb_ge. lia.
Qed.

Lemma render_fill t n l1 l2 fuel taxonomy :
  lineage t n (l1 ++ l2) → length (l1 ++ l2) ≤ S fuel →
  (∀ c, c ∈ l2 → is_Some (clade_name t !! c)) →
  render fuel l2 taxonomy t = Ok (fill t (length l1) l2 taxonomy, t).
Proof.
  revert l1 taxonomy. induction l2 as [|a l2 IH]; intros l1 taxonomy Hl Hfuel Hn.
  { reflexivity. }
  assert (Hrest : ∀ tax,
    render fuel l2 tax t = Ok (fill t (S (length l1)) l2 tax, t)).
  { intros tax.
    replace (S (length l1)) with (length (l1 ++ [a]))
      by (rewrite length_app; simpl; lia).
    apply IH.
    - by rewrite <- app_assoc.
    - by rewrite <- app_assoc.
    - intros c Hc. apply Hn. apply elem_of_cons. by right. }
  destruct (Hn a) as [s Hs]; [apply elem_of_cons; by left|].
  cbn [render fill]. unfold bind at 1.
  rewrite (get_depth_lineage t a (l1 ++ [a]) fuel).
  - replace (length (l1 ++ [a])) with (S (length l1))
      by (rewrite length_app; simpl; lia).
    rewrite Hs. cbn [default].
    generalize dependent (S (length l1)). intros d Hrest.
    destruct (fills_slot d) eqn:Hf; [|apply Hrest].
    apply fills_slot_depths in Hf. unfold abbreviation.
    repeat (apply elem_of_cons in Hf as [->|Hf];
            [cbn; unfold bind, gets; cbn; rewrite Hs; apply Hrest|]).
    by apply not_elem_of_nil in Hf.
  - by eapply lineage_prefix.
  - rewrite !length_app in *. simpl in *. lia.
Qed.

Lemma fills_slot_deep d : SUBSPECIES ≤ d → fills_slot d = false.
Proof.
  intros Hd. destruct (fills_slot d) eqn:Hf; [|done].
  apply fills_slot_depths in Hf. unfold SUBSPECIES in Hd.
  repeat (apply elem_of_cons in Hf as [->|Hf];
          [unfold DOMAIN, PHYLUM, CLASS, ORDER, FAMILY, GENUS, SPECIES in Hd; lia|]).
  by apply not_elem_of_nil in Hf.
Qed.

Lemma fill_deep t above l taxonomy :
  SPECIES ≤ above → fill t above l taxonomy = taxonomy.
Proof.
  revert above taxonomy. induction l as [|a l IH]; intros above taxonomy Hd; [done|].
  cbn [fill]. rewrite fills_slot_deep by (unfold SUBSPECIES, SPECIES in *; lia).
  apply IH. unfold SPECIES in *. lia.
Qed.

(** The loop, started on a whole lineage, fills the seven slots from the
    clades at the seven slot depths. *)
Lemma fill_slots t l :
  (∀ c, c ∈ l → is_Some (clade_name t !! c)) →
  fill t 0 l unknown =
    [("k"%char, slot t l DOMAIN); ("p"%char, slot t l PHYLUM);
     ("c"%char, slot t l CLASS); ("o"%char, slot t l ORDER);
     ("f"%char, slot t l FAMILY); ("g"%char, slot t l GENUS);
     ("s"%char, slot t l SPECIES)].
Proof.
  intros Hn.
  assert (Hs : ∀ d, slot t l d =
                    match l !! (d - 1) with
                    | Some c => replace_space (default "" (clade_name t !! c))
                    | None => "?"
                    end).
  { intros d. unfold slot. destruct (l !! (d - 1)) as [c|] eqn:Hc; [|done].
    simpl. destruct (Hn c) as [s ->]; [by eapply list_elem_of_lookup_2|done]. }
  rewrite !Hs. clear Hs Hn.
  do 10 (destruct l as [|? l]; [reflexivity|]).
  cbn [fill]. rewrite fill_deep by done. reflexivity.
Qed.

Lemma get_depth_root t fuel : get_depth fuel (RClade (root t)) t = Ok (0, t).
Proof.
  cbv [get_depth verify_node bind ret]. rewrite get_path_root. cbv [gets].
  simpl. by rewrite bool_decide_eq_true_2.
Qed.

Lemma get_taxonomy_root t fuel :
  get_taxonomy fuel (Some (root t)) t = Ok (unknown, t).
Proof.
  unfold get_taxonomy, bind. rewrite get_path_root.
  cbn [render]. unfold bind. by rewrite get_depth_root.
Qed.

Lemma get_depth_on_lineage t n l fuel i c :
  lineage t n l → length l ≤ S fuel → l !! i = Some c →
  get_depth fuel (RClade c) t = Ok (S i, t).
Proof.
  intros Hl Hfuel Hc.
  pose proof (lookup_lt_Some _ _ _ Hc) as Hi.
  rewrite <- (take_drop_middle _ _ _ Hc) in Hl.
  apply lineage_prefix in Hl.
  replace (S i) with (length (take i l ++ [c])).
  - apply get_depth_lineage; [done|].
    rewrite length_app, length_take. simpl. lia.
  - rewrite length_app, length_take. simpl. lia.
Qed.

(** C8, as amended.  For a clade whose recorded parents lead to the root
    and whose lineage is named, rendering gives the seven slots
    k, p, c, o, f, g, s in this order.  The clade at depth [S i] is the
    [i]-th element of the lineage.  Slot k holds the name of the clade at
    the domain depth (2), and slots p, c, o, f, g, s those of the clades
    at the depths of phylum (5), class, order, family, genus and species
    (10), with every space replaced by an underscore; a slot whose depth
    the lineage does not reach holds "?".  The clades at the depths of
    superkingdom (3) and kingdom (4) are skipped: their names go to no
    slot, the k slot included, and so are the clades at the meta depth and
    at the strain depth or deeper.  Rendering the root gives seven "?". *)
Theorem get_taxonomy_slots t n l fuel :
  lineage t n l → length l ≤ S fuel →
  (∀ c, c ∈ l → is_Some (clade_name t !! c)) →
  get_taxonomy fuel (Some n) t =
    Ok ([("k"%char, slot t l DOMAIN); ("p"%char, slot t l PHYLUM);
         ("c"%char, slot t l CLASS); ("o"%char, slot t l ORDER);
         ("f"%char, slot t l FAMILY); ("g"%char, slot t l GENUS);
         ("s"%char, slot t l SPECIES)], t)
  ∧ (∀ i c, l !! i = Some c → get_depth fuel (RClade c) t = Ok (S i, t))
  ∧ get_taxonomy fuel (Some (root t)) t = Ok (unknown, t).
Proof.
  intros Hl Hfuel Hn. split; [|split].
  - unfold get_taxonomy, bind. rewrite (get_path_lineage _ _ _ _ Hl Hfuel).
    rewrite (render_fill t n [] l fuel unknown Hl Hfuel Hn). simpl.
    by rewrite fill_slots.
  - intros i c. by eapply get_depth_on_lineage.
  - apply get_taxonomy_root.
Qed.

Lemma get_taxonomy_slots_witness :
  get_taxonomy 5 (Some 8) Sample.tre =
    Ok ([("k"%char, slot Sample.tre [1; 2; 4; 5; 6; 8] DOMAIN);
         ("p"%char, slot Sample.tre [1; 2; 4; 5; 6; 8] PHYLUM);
         ("c"%char, slot Sample.tre [1; 2; 4; 5; 6; 8] CLASS);
         ("o"%char, slot Sample.tre [1; 2; 4; 5; 6; 8] ORDER);
         ("f"%char, slot Sample.tre [1; 2; 4; 5; 6; 8] FAMILY);
         ("g"%char, slot Sample.tre [1; 2; 4; 5; 6; 8] GENUS);
         ("s"%char, slot Sample.tre [1; 2; 4; 5; 6; 8] SPECIES)], Sample.tre).
Proof.
  apply (get_taxonomy_slots Sample.tre 8 [1; 2; 4; 5; 6; 8] 5).
  - vm_compute. repeat split; discriminate.
  - simpl. lia.
  - intros c Hc.
    repeat (apply elem_of_cons in Hc as [->|Hc]; [vm_compute; eauto|]).
    by apply not_elem_of_nil in Hc.
Defined.

(** C8, as stated, fails: on the lineage of clade 8 of the sample tree,
    clade 4 ("Bact super") is at the superkingdom depth and clade 5
    ("Bact kingdom") at the kingdom depth; the k slot holds "Bacteria",
    the name at the domain depth, and neither of the two names is in any
    slot. *)
Lemma kingdom_depths_dropped :
  get_depth 5 (RClade 4) Sample.tre = Ok (SUPERKINGDOM, Sample.tre)
  ∧ get_depth 5 (RClade 5) Sample.tre = Ok (KINGDOM, Sample.tre)
  ∧ clade_name Sample.tre !! 4 = Some "Bact super"
  ∧ clade_name Sample.tre !! 5 = Some "Bact kingdom"
  ∧ get_taxonomy 5 (Some 8) Sample.tre =
      Ok ([("k"%char, "Bacteria"); ("p"%char, "Proteo_bacteria");
           ("c"%char, "AB123456"); ("o"%char, "?"); ("f"%char, "?");
           ("g"%char, "?"); ("s"%char, "?")], Sample.tre).
Proof. repeat split; vm_compute; reflexivity. Qed.

(** ** The trees that [__init__] builds

    Whatever the map file, the constructor succeeds on a tree with
    distinct clades, adds the sentinel under the root, and records the
    parent of every clade; so every clade but the root has a lineage, and
    the premises of the statements above are those of any constructed
    tree. *)

Lemma clade_forall_ind (P : clade → Prop) :
  (∀ n cs, Forall P cs → P (Clade n cs)) → ∀ c, P c.
Proof.
  intros H. fix IH 1. intros [n cs]. apply H.
  induction cs as [|c cs IHcs]; constructor; [apply IH|exact IHcs].
Qed.

Lemma elem_of_flat_map {A B} (f : A → list B) (l : list A) (y : B) :
  y ∈ flat_map f l ↔ ∃ x, x ∈ l ∧ y ∈ f x.
Proof.
  rewrite list_elem_of_In, in_flat_map. split.
  - intros (x & Hx & Hy). exists x. by rewrite !list_elem_of_In.
  - intros (x & Hx & Hy). exists x. by rewrite <- !list_elem_of_In.
Qed.

Lemma flat_map_length_elem {A B} (f : A → list B) (l : list A) (x : A) :
  x ∈ l → length (f x) ≤ length (flat_map f l).
Proof.
  induction l as [|a l IH]; [by intros ?%not_elem_of_nil|].
  simpl. rewrite length_app. intros [->|Hx]%elem_of_cons; [lia|].
  specialize (IH Hx). lia.
Qed.

Lemma subtree_chain c : ∀ q t,
  (∀ n p, (n, p) ∈ tree_parents c (Some q) → parents t !! n = Some p) →
  (∀ n, n ∈ clade_ids c → n ≠ root t) →
  ∀ n, n ∈ clade_ids c →
    ∃ l, chain t q l ∧ last l = Some n ∧ length l ≤ length (clade_ids c).
Proof.
  induction c as [m cs IH] using clade_forall_ind. intros q t Hrec Hne n Hn.
  simpl in Hn. apply elem_of_cons in Hn as [->|Hn].
  - exists [m]. split; [|split; [done|simpl; lia]].
    simpl. split; [apply Hne; simpl; apply elem_of_cons; by left|].
    split; [|done]. apply Hrec. simpl. apply elem_of_app. right.
    by apply list_elem_of_singleton.
  - apply elem_of_flat_map in Hn as (c' & Hc' & Hn).
    rewrite Forall_forall in IH.
    destruct (IH c' Hc' m t) with (n := n) as (l & Hl & Hlast & Hlen); [| |done|].
    + intros n' p Hin. apply Hrec. simpl. apply elem_of_app. left.
      apply elem_of_flat_map. by exists c'.
    + intros n' Hin. apply Hne. simpl. apply elem_of_cons. right.
      apply elem_of_flat_map. by exists c'.
    + exists (m :: l). split; [|split].
      * simpl. split; [apply Hne; simpl; apply elem_of_cons; by left|].
        split; [|done]. apply Hrec. simpl. apply elem_of_app. right.
        by apply list_elem_of_singleton.
      * destruct l; [done|]. done.
      * simpl. pose proof (flat_map_length_elem clade_ids cs c' Hc'). lia.
Qed.

Lemma recorded_lineage t n :
  recorded t → n ∈ clade_ids (tree t) → n ≠ root t →
  ∃ l, lineage t n l ∧ length l < length (clade_ids (tree t)).
Proof.
  intros [Hnd Hrec] Hn Hne. unfold root in *.
  destruct (tree t) as [r cs] eqn:Ht. simpl in *.
  apply elem_of_cons in Hn as [->|Hn]; [done|].
  apply elem_of_flat_map in Hn as (c' & Hc' & Hn).
  apply NoDup_cons in Hnd as [Hr Hnd].
  destruct (subtree_chain c' r t) with (n := n) as (l & Hl & Hlast & Hlen); [| |done|].
  - intros n' p Hin. apply Hrec. apply elem_of_app. left.
    apply elem_of_flat_map. by exists c'.
  - intros n' Hin. unfold root. rewrite Ht. simpl. intros ->. apply Hr.
    apply elem_of_flat_map. by exists c'.
  - exists l. split.
    + split; [|done]. unfold root. by rewrite Ht.
    + pose proof (flat_map_length_elem clade_ids cs c' Hc'). lia.
Qed.

Lemma record_all_app l1 l2 t :
  record_all (l1 ++ l2) t = record_all l2 (record_all l1 t).
Proof. apply foldl_app. Qed.

Lemma get_all_children_spec c : ∀ parent children t,
  get_all_children c parent children t
  = (children ++ (tree_parents c parent).*1, record_all (tree_parents c parent) t).
Proof.
  induction c as [n cs IH] using clade_forall_ind. intros parent children t.
  simpl.
  assert (Hgo : ∀ children t,
    (fix go (cs : list clade) (children : list node) (t : Tree) :=
       match cs with
       | [] => (children, t)
       | c' :: cs' =>
           let '(ch, t1) := get_all_children c' (Some n) children t in
           go cs' ch t1
       end) cs children t
    = (children ++ (flat_map (λ c', tree_parents c' (Some n)) cs).*1,
       record_all (flat_map (λ c', tree_parents c' (Some n)) cs) t)).
  { clear parent children t. induction IH as [|c' cs' Hc' _ IHcs]; intros children t.
    - simpl. by rewrite app_nil_r.
    - simpl. rewrite Hc', IHcs. rewrite fmap_app, record_all_app.
      by rewrite app_assoc. }
  rewrite Hgo. rewrite fmap_app, record_all_app. simpl.
  by rewrite app_assoc.
Qed.

Lemma record_all_fields l t :
  tree (record_all l t) = tree t
  ∧ clade_name (record_all l t) = clade_name t
  ∧ node_names (record_all l t) = node_names t
  ∧ node_ids (record_all l t) = node_ids t
  ∧ assignment_min (record_all l t) = assignment_min t
  ∧ no_hits (record_all l t) = no_hits t
  ∧ logged (record_all l t) = logged t.
Proof.
  revert t. induction l as [|[a b] l IH]; intros t; [done|].
  simpl. destruct (IH (set_parent a b t)) as (-> & -> & -> & -> & -> & -> & ->).
  done.
Qed.

Lemma record_all_other l t n :
  n ∉ l.*1 → parents (record_all l t) !! n = parents t !! n.
Proof.
  revert t. induction l as [|[a b] l IH]; intros t; [done|].
  simpl. intros [Hne Hn]%not_elem_of_cons. rewrite (IH _ Hn). simpl.
  by rewrite lookup_insert_ne.
Qed.

Lemma record_all_lookup l t n p :
  NoDup l.*1 → (n, p) ∈ l → parents (record_all l t) !! n = Some p.
Proof.
  revert t. induction l as [|[a b] l IH]; intros t; [by intros _ ?%not_elem_of_nil|].
  simpl. intros [Ha Hnd]%NoDup_cons [[= -> ->]|Hin]%elem_of_cons.
  - rewrite record_all_other by done. simpl. apply lookup_insert_eq.
  - by apply IH.
Qed.

Lemma tree_parents_ids c : ∀ parent, (tree_parents c parent).*1 ≡ₚ clade_ids c.
Proof.
  induction c as [n cs IH] using clade_forall_ind. intros parent. simpl.
  rewrite fmap_app. simpl. rewrite <- Permutation_cons_append.
  constructor. induction IH as [|c' cs' Hc' _ IHcs]; [done|].
  simpl. by rewrite fmap_app, Hc', IHcs.
Qed.

Lemma max_id_bound c : ∀ n, n ∈ clade_ids c → n ≤ max_id c.
Proof.
  induction c as [m cs IH] using clade_forall_ind. intros n. simpl.
  intros [->|Hn]%elem_of_cons.
  - clear IH. induction cs as [|c cs IHcs]; simpl; lia.
  - apply elem_of_flat_map in Hn as (c' & Hc' & Hn).
    induction IH as [|c cs Hc _ IHcs]; [by apply not_elem_of_nil in Hc'|].
    simpl. apply elem_of_cons in Hc' as [->|Hc'].
    + specialize (Hc n Hn). lia.
    + specialize (IHcs Hc'). lia.
Qed.

Lemma append_clade_absent p ch c : p ∉ clade_ids c → append_clade p ch c = c.
Proof.
  induction c as [n cs IH] using clade_forall_ind. simpl.
  intros [Hne Hp]%not_elem_of_cons.
  rewrite decide_False by done. f_equal.
  induction IH as [|c cs Hc _ IHcs]; [done|]. simpl in *.
  rewrite elem_of_app in Hp. rewrite Hc, IHcs; tauto.
Qed.

Lemma append_clade_root r cs ch :
  NoDup (clade_ids (Clade r cs)) →
  append_clade r ch (Clade r cs) = Clade r (cs ++ [ch]).
Proof.
  simpl. intros [Hr _]%NoDup_cons. rewrite decide_True by done. do 2 f_equal.
  induction cs as [|c cs IHcs]; [done|]. simpl in *.
  rewrite elem_of_app in Hr. rewrite append_clade_absent, IHcs; tauto.
Qed.

Lemma index_children_shape children t :
  ∃ t', index_children children t = Ok (tt, t') ∧ same_shape t t'.
Proof.
  revert t. induction children as [|child children IH]; intros t.
  - by exists t.
  - simpl. unfold bind, gets, modify, ret. simpl.
    destruct (clade_name t !! child) as [s|]; simpl.
    + destruct (IH (set_node_id s child t)) as (t' & -> & Hs). by exists t'.
    + apply IH.
Qed.

Lemma read_row_shape r t :
  ∃ t', read_row r t = Ok (tt, t') ∧ same_shape t t'.
Proof.
  unfold read_row, bind, gets, modify, logging, ret. simpl.
  destruct (node_ids t !! row_node_id r) as [n|]; simpl; [|by eexists].
  destruct (_ && _); simpl; by eexists.
Qed.

Lemma read_map_shape rows t :
  ∃ t', read_map rows t = Ok (tt, t') ∧ same_shape t t'.
Proof.
  revert t. induction rows as [|r rows IH]; intros t.
  - by exists t.
  - simpl. unfold bind. destruct (read_row_shape r t) as (t1 & -> & H1 & H2 & H3).
    destruct (IH t1) as (t' & -> & H1' & H2' & H3'). exists t'.
    split; [done|]. unfold same_shape. by rewrite H1', H2', H3'.
Qed.

Theorem init_recorded mapfile trefile names :
  NoDup (clade_ids trefile) →
  ∃ t, __init__ mapfile trefile names = Ok t
       ∧ recorded t
       ∧ root t = clade_id trefile
       ∧ no_hits t = Some (S (max_id trefile))
       ∧ parents t !! S (max_id trefile) = Some (Some (root t))
       ∧ (∀ n, n ∈ clade_ids (tree t) ↔ n = S (max_id trefile) ∨ n ∈ clade_ids trefile).
Proof.
  intros Hnd. unfold __init__, init_tree.
  unfold bind at 1, gets at 1. unfold bind at 1.
  unfold add_node, bind at 1, gets at 1. simpl.
  unfold bind, gets, modify, ret. simpl. rewrite lookup_empty. simpl.
  rewrite get_all_children_spec. simpl.
  set (nd := S (max_id trefile)).
  match goal with
  | |- context [record_all ?l ?t0] => set (t2 := t0); set (t3 := record_all _ t2)
  end.
  match goal with
  | |- context [index_children ?ch ?t0] =>
      destruct (index_children_shape ch t0) as (t4 & -> & Ht4 & Hp4 & Hn4)
  end.
  destruct (read_map_shape mapfile t4) as (t & -> & Ht & Hp & Hn).
  exists t. split; [done|].
  destruct (record_all_fields (tree_parents (tree t2) None) t2)
    as (Ht3 & _ & _ & _ & _ & Hn3 & _).
  change (tree t3 = tree t2) in Ht3. change (no_hits t3 = no_hits t2) in Hn3.
  assert (Htree : tree t = append_clade (clade_id trefile) (Clade nd []) trefile).
  { by rewrite Ht, Ht4, Ht3. }
  destruct trefile as [r cs] eqn:Htre. simpl in Htree.
  rewrite <- Htre in Hnd.
  assert (Hfresh : nd ∉ clade_ids trefile).
  { intros Hin%max_id_bound. unfold nd in Hin. rewrite Htre in Hin. lia. }
  rewrite Htre in Hnd, Hfresh.
  pose proof (append_clade_root r cs (Clade nd []) Hnd) as Happ.
  simpl in Happ. rewrite Happ in Htree.
  assert (Hids : clade_ids (tree t) ≡ₚ nd :: clade_ids (Clade r cs)).
  { rewrite Htree. simpl. rewrite flat_map_app. simpl.
    symmetry. apply (Permutation_cons_append (r :: flat_map clade_ids cs) nd). }
  assert (Hnd' : NoDup (clade_ids (tree t))).
  { rewrite Hids. by apply NoDup_cons. }
  assert (Hrec : ∀ n p, (n, p) ∈ tree_parents (tree t) None →
                        parents t !! n = Some p).
  { intros n p Hin. rewrite Hp, Hp4.
    change (parents (record_all (tree_parents (tree t2) None) t2) !! n = Some p).
    assert (Heq : tree t2 = tree t) by (by rewrite Ht, Ht4, Ht3).
    rewrite Heq. apply record_all_lookup; [|done]. by rewrite tree_parents_ids. }
  split; [by split|].
  split; [unfold root; by rewrite Htree|].
  split; [by rewrite Hn, Hn4, Hn3|].
  split.
  - apply Hrec. rewrite Htree. simpl. rewrite flat_map_app. simpl.
    unfold root. rewrite Htree. simpl.
    rewrite !elem_of_app. left. right. apply elem_of_cons. by left.
  - intros n. rewrite Hids. apply elem_of_cons.
Qed.

Corollary init_get_path mapfile trefile names :
  NoDup (clade_ids trefile) →
  ∃ t, __init__ mapfile trefile names = Ok t
       ∧ ∀ n, n ∈ clade_ids (tree t) → n ≠ root t →
           ∃ l, lineage t n l
                ∧ get_path (length (clade_ids (tree t))) (Some n) t = Ok (Some l, t).
Proof.
  intros Hnd.
  destruct (init_recorded mapfile trefile names Hnd) as (t & Hinit & Hrec & _).
  exists t. split; [done|]. intros n Hn Hne.
  destruct (recorded_lineage t n Hrec Hn Hne) as (l & Hl & Hlen).
  exists l. split; [done|]. apply get_path_lineage; [done|lia].
Qed.

(** * More properties *)

(** ** Queries leave the taxonomy alone *)

Lemma frame_refl t : frame t t.
Proof. by repeat split. Qed.

Lemma frame_trans t1 t2 t3 : frame t1 t2 → frame t2 t3 → frame t1 t3.
Proof.
  intros (a1 & a2 & a3 & a4 & a5 & a6 & a7 & a8 & a9)
         (b1 & b2 & b3 & b4 & b5 & b6 & b7 & b8 & b9).
  repeat split; try congruence; by etrans.
Qed.

Lemma frame_add_log r t : frame t (add_log r t).
Proof. repeat split; try done. simpl. by apply prefix_app_r. Qed.

Lemma frame_set_parent n p t :
  parents t !! n = None → frame t (set_parent n p t).
Proof. intros H. repeat split; try done. simpl. by apply insert_subseteq. Qed.

Lemma keeps_ret {A} (a : A) : keeps (ret a).
Proof. intros t a' t' [= <- <-]. apply frame_refl. Qed.

Lemma keeps_gets {A} (f : Tree → A) : keeps (gets f).
Proof. intros t a' t' [= <- <-]. apply frame_refl. Qed.

Lemma keeps_raise {A} e : keeps (@raise A e).
Proof. by intros t a' t'. Qed.

Lemma keeps_diverge {A} : keeps (@diverge A).
Proof. by intros t a' t'. Qed.

Lemma keeps_logging r : keeps (logging r).
Proof. intros t a' t' [= <- <-]. apply frame_add_log. Qed.

Lemma keeps_bind {A B} (m : M A) (k : A → M B) :
  keeps m → (∀ a, keeps (k a)) → keeps (bind m k).
Proof.
  intros Hm Hk t b t'. unfold bind.
  destruct (m t) as [[a t1]| |] eqn:Hmt; try done.
  intros Hkt. eapply frame_trans; [by eapply Hm|by eapply Hk].
Qed.

Create HintDb keeps.
#[local] Hint Resolve keeps_ret keeps_gets keeps_raise keeps_diverge
  keeps_logging : keeps.

Ltac keeps_step :=
  first
    [ solve [auto 1 with keeps nocore]
    | apply keeps_bind; [|intros ?]
    | match goal with
      | |- keeps (match ?x with _ => _ end) => destruct x
      end ].
Ltac keeps := repeat keeps_step.

Lemma keeps_verify_node r : keeps (verify_node r).
Proof. destruct r; simpl; keeps. Qed.
#[local] Hint Resolve keeps_verify_node : keeps.

Lemma keeps_get_parent r : keeps (get_parent r).
Proof.
  unfold get_parent. apply keeps_bind; [apply keeps_verify_node|].
  intros [n|]; [|keeps].
  intros t a t'. unfold bind, gets. simpl.
  destruct (parents t !! n) as [p|] eqn:Hp.
  { intros [= <- <-]. apply frame_refl. }
  destruct (phylo_get_path (tree t) n) as [l|].
  - destruct (rev l) as [|x [|y l']]; unfold modify, ret; simpl;
      intros [= <- <-]; try apply frame_refl. by apply frame_set_parent.
  - intros [= <- <-]. apply frame_refl.
Qed.
#[local] Hint Resolve keeps_get_parent : keeps.

Lemma keeps_get_path_loop fuel : ∀ parent plist,
  keeps (get_path_loop fuel parent plist).
Proof. induction fuel as [|fuel IH]; intros [p|] plist; simpl; keeps. Qed.
#[local] Hint Resolve keeps_get_path_loop : keeps.

Lemma keeps_get_path fuel nd : keeps (get_path fuel nd).
Proof. destruct nd as [n|]; simpl; keeps. Qed.
#[local] Hint Resolve keeps_get_path : keeps.

Lemma keeps_get_depth fuel r : keeps (get_depth fuel r).
Proof. unfold get_depth. keeps. Qed.
#[local] Hint Resolve keeps_get_depth : keeps.

Lemma keeps_get_rank fuel r : keeps (get_rank fuel r).
Proof. unfold get_rank. keeps. Qed.
#[local] Hint Resolve keeps_get_rank : keeps.

Lemma keeps_render fuel : ∀ pth taxonomy, keeps (render fuel pth taxonomy).
Proof. induction pth as [|cl pth IH]; intros taxonomy; simpl; keeps. Qed.
#[local] Hint Resolve keeps_render : keeps.

Lemma keeps_get_taxonomy fuel nd : keeps (get_taxonomy fuel nd).
Proof. destruct nd as [n|]; simpl; keeps. Qed.
#[local] Hint Resolve keeps_get_taxonomy : keeps.

Lemma keeps_get_paths fuel nodes : keeps (get_paths fuel nodes).
Proof. induction nodes as [|n nodes IH]; simpl; keeps. Qed.
#[local] Hint Resolve keeps_get_paths : keeps.

Lemma keeps_get_common_ancestor fuel names :
  keeps (get_common_ancestor fuel names).
Proof. unfold get_common_ancestor. keeps. Qed.
#[local] Hint Resolve keeps_get_common_ancestor : keeps.

Lemma keeps_climb fuel pids : ∀ lca_node, keeps (climb fuel pids lca_node).
Proof. induction fuel as [|fuel IH]; intros [n|]; simpl; keeps. Qed.
#[local] Hint Resolve keeps_climb : keeps.

Lemma keeps_euk_filtered fuel euk n : keeps (euk_filtered fuel euk n).
Proof. unfold euk_filtered. keeps. Qed.
#[local] Hint Resolve keeps_euk_filtered : keeps.

Lemma keeps_classify {BlastHits} hit_names percent_ids fuel euk hits :
  keeps (classify BlastHits hit_names percent_ids fuel euk hits).
Proof. unfold classify. keeps. Qed.
#[local] Hint Resolve keeps_classify : keeps.

Lemma keeps_classify_all {BlastHits} hit_names percent_ids fuel euk
    (hsps : list (string * BlastHits)) : ∀ otus,
  keeps (classify_all BlastHits hit_names percent_ids fuel euk hsps otus).
Proof. induction hsps as [|[name hits] hsps IH]; intros otus; simpl; keeps. Qed.

(** X1.  A query never changes the taxonomy: [get_parent], [get_path],
    [get_depth], [get_rank], [get_common_ancestor], [get_taxonomy] and a
    whole run of [parse_blasthits] leave the topology, the names, the two
    name indices, the thresholds and the sentinel as they were; they can
    only add entries to the parent cache and records to the log. *)
Theorem queries_keep_taxonomy {BlastHits} new_hits add_hit hit_names percent_ids fuel :
  (∀ r, keeps (get_parent r))
  ∧ (∀ nd, keeps (get_path fuel nd))
  ∧ (∀ r, keeps (get_depth fuel r))
  ∧ (∀ r, keeps (get_rank fuel r))
  ∧ (∀ names, keeps (get_common_ancestor fuel names))
  ∧ (∀ nd, keeps (get_taxonomy fuel nd))
  ∧ (∀ blasthits otus min_score top_fraction euk_filter,
       keeps (parse_blasthits BlastHits new_hits add_hit hit_names percent_ids
                fuel blasthits otus min_score top_fraction euk_filter)).
Proof.
  repeat apply conj.
  - apply keeps_get_parent.
  - apply keeps_get_path.
  - apply keeps_get_depth.
  - apply keeps_get_rank.
  - apply keeps_get_common_ancestor.
  - apply keeps_get_taxonomy.
  - intros blasthits otus min_score top_fraction euk_filter.
    apply keeps_classify_all.
Qed.

Lemma queries_keep_taxonomy_witness :
  ∃ otus' t', Sample.run Sample.blasthits true Sample.tre = Ok (otus', t')
              ∧ frame Sample.tre t'.
Proof.
  destruct (Sample.run Sample.blasthits true Sample.tre) as [[otus' t']| |] eqn:H;
    [|vm_compute in H; discriminate..].
  exists otus', t'. split; [reflexivity|].
  destruct (queries_keep_taxonomy Sample.new_hits Sample.add_hit
              Sample.hit_names Sample.percent_ids 6)
    as (_ & _ & _ & _ & _ & _ & Hparse).
  exact (Hparse _ _ _ _ _ _ _ _ H).
Defined.

(** ** The lowest common ancestor *)

Lemma lineage_unique t n l1 : ∀ l2, lineage t n l1 → lineage t n l2 → l1 = l2.
Proof.
  revert n. induction l1 as [|x l1 IH] using rev_ind; intros n l2.
  { by intros ?%lineage_not_nil. }
  destruct l2 as [|y l2 _] using rev_ind.
  { by intros _ ?%lineage_not_nil. }
  rewrite !lineage_snoc. intros (-> & _ & Hc1 & Hp1) (Hxy & _ & Hc2 & Hp2).
  subst y. rewrite Hp1 in Hp2. injection Hp2 as Hlast. f_equal.
  destruct l1 as [|w l1 _] using rev_ind; destruct l2 as [|z l2 _] using rev_ind;
    try done.
  - rewrite last_snoc in Hlast. simpl in Hlast. subst z.
    apply chain_snoc in Hc2 as (_ & Hne & _). done.
  - rewrite last_snoc in Hlast. simpl in Hlast. subst w.
    apply chain_snoc in Hc1 as (_ & Hne & _). done.
  - rewrite !last_snoc in Hlast. simpl in Hlast. subst z.
    apply (IH w); split; try done; by rewrite last_snoc.
Qed.

Lemma lineage_shared_prefix t a p1 x p2 b q :
  lineage t a (p1 ++ x :: p2) → lineage t b q → x ∈ q →
  ∀ y, y ∈ p1 → y ∈ q.
Proof.
  intros Hp Hq Hx y Hy.
  apply list_elem_of_split in Hx as (q1 & q2 & ->).
  apply lineage_prefix in Hp, Hq.
  pose proof (lineage_unique _ _ _ _ Hp Hq) as Heq.
  apply app_inj_tail in Heq as [-> _].
  apply elem_of_app. by left.
Qed.

Lemma shrink_spec rp path :
  match shrink rp path with
  | Kept rp' =>
      ∃ dropped x rest, rp = dropped ++ x :: rest ∧ rp' = x :: rest
        ∧ x ∈ path ∧ ∀ y, y ∈ dropped → y ∉ path
  | ReturnRoot => rp ≠ [] ∧ ∀ y, y ∈ rp → y ∉ path
  | EmptyPath => rp = []
  end.
Proof.
  induction rp as [|x rest IH]; [done|]. simpl.
  destruct (bool_decide (x ∈ path)) eqn:Hx.
  - apply bool_decide_eq_true in Hx. exists [], x, rest.
    repeat split; try done. by intros y ?%not_elem_of_nil.
  - apply bool_decide_eq_false in Hx. destruct rest as [|z r].
    + split; [done|]. by intros y ->%list_elem_of_singleton.
    + destruct (shrink (z :: r) path) as [rp'| |].
      * destruct IH as (d & x' & rest' & Hrp & -> & Hin & Hd).
        exists (x :: d), x', rest'. rewrite Hrp. repeat split; try done.
        intros y [->|?]%elem_of_cons; auto.
      * destruct IH as [_ Hall]. split; [done|].
        intros y [->|?]%elem_of_cons; auto.
      * done.
Qed.

Lemma intersect_spec paths : ∀ rp,
  rp ≠ [] →
  (∀ q d x r, q ∈ paths → rp = d ++ x :: r → x ∈ q → ∀ y, y ∈ r → y ∈ q) →
  match intersect rp paths with
  | Kept rp' =>
      ∃ dropped x rest, rp = dropped ++ x :: rest ∧ rp' = x :: rest
        ∧ (∀ q y, q ∈ paths → y ∈ rp' → y ∈ q)
        ∧ (∀ y, y ∈ dropped → ∃ q, q ∈ paths ∧ y ∉ q)
  | ReturnRoot => ∀ y, y ∈ rp → ∃ q, q ∈ paths ∧ y ∉ q
  | EmptyPath => False
  end.
Proof.
  induction paths as [|q qs IH]; intros rp Hne Hcl; simpl.
  - destruct rp as [|x rest]; [done|]. exists [], x, rest.
    repeat split; try done.
    + by intros q y ?%not_elem_of_nil.
    + by intros y ?%not_elem_of_nil.
  - pose proof (shrink_spec rp q) as Hs.
    destruct (shrink rp q) as [rp1| |].
    + destruct Hs as (d1 & x & rest & Hrp & -> & Hx & Hd1).
      assert (Hq : ∀ y, y ∈ x :: rest → y ∈ q).
      { intros y [->|Hy]%elem_of_cons; [done|].
        eapply (Hcl q d1 x rest); [apply elem_of_cons; by left|done..]. }
      specialize (IH (x :: rest)). 
      destruct (intersect (x :: rest) qs) as [rp'| |].
      * destruct IH as (d2 & x2 & rest2 & Hrp1 & -> & Hall & Hd2); [done| |].
        { intros q' d x' r Hq' Heq. apply (Hcl q' (d1 ++ d) x' r).
          - apply elem_of_cons. by right.
          - by rewrite Hrp, Heq, <- app_assoc. }
        exists (d1 ++ d2), x2, rest2. repeat split.
        -- by rewrite Hrp, Hrp1, <- app_assoc.
        -- intros q' y [->|Hq']%elem_of_cons Hy; [|by eapply Hall].
           apply Hq. rewrite Hrp1. apply elem_of_app. by right.
        -- intros y [Hy|Hy]%elem_of_app.
           ++ exists q. split; [apply elem_of_cons; by left|by apply Hd1].
           ++ destruct (Hd2 y Hy) as (q' & ? & ?). exists q'.
              split; [apply elem_of_cons; by right|done].
      * intros y. rewrite Hrp. intros [Hy|Hy]%elem_of_app.
        -- exists q. split; [apply elem_of_cons; by left|by apply Hd1].
        -- destruct IH with (y := y) as (q' & ? & ?); [done| |done|].
           { intros q' d x' r Hq' Heq. apply (Hcl q' (d1 ++ d) x' r).
             - apply elem_of_cons. by right.
             - by rewrite Hrp, Heq, <- app_assoc. }
           exists q'. split; [apply elem_of_cons; by right|done].
      * apply IH; [done|].
        intros q' d x' r Hq' Heq. apply (Hcl q' (d1 ++ d) x' r).
        -- apply elem_of_cons. by right.
        -- by rewrite Hrp, Heq, <- app_assoc.
    + destruct Hs as [_ Hall]. intros y Hy. exists q.
      split; [apply elem_of_cons; by left|by apply Hall].
    + done.
Qed.

Lemma insert_len_perm p ps : insert_len p ps ≡ₚ p :: ps.
Proof.
  induction ps as [|q qs IH]; [done|]. simpl.
  destruct (_ <=? _); [done|]. rewrite IH. apply perm_swap.
Qed.

Lemma sorted_len_perm ps : sorted_len ps ≡ₚ ps.
Proof.
  induction ps as [|p ps IH]; [done|]. unfold sorted_len in *. simpl.
  by rewrite insert_len_perm, IH.
Qed.

Lemma elem_of_rev {A} (x : A) (l : list A) : x ∈ rev l ↔ x ∈ l.
Proof. rewrite !list_elem_of_In. symmetry. apply in_rev. Qed.

Lemma all_paths_Some ls : all_paths (Some <$> ls) = Some ls.
Proof.
  induction ls as [|l ls IH]; [done|].
  rewrite fmap_cons. cbn [all_paths]. by rewrite IH.
Qed.

Lemma get_paths_lineages fuel t nodes :
  (∀ o, o ∈ nodes → ∃ n l, o = Some n ∧ lineage t n l ∧ length l ≤ S fuel) →
  ∃ ls, get_paths fuel nodes t = Ok (Some <$> ls, t)
        ∧ Forall2 (λ o l, ∃ n, o = Some n ∧ lineage t n l) nodes ls.
Proof.
  induction nodes as [|o nodes IH]; intros H.
  - exists []. by split; [|constructor].
  - destruct (H o) as (n & l & -> & Hl & Hlen); [apply elem_of_cons; by left|].
    destruct IH as (ls & Hls & HF).
    { intros o Ho. apply H. apply elem_of_cons. by right. }
    exists (l :: ls). split.
    + cbn [get_paths]. unfold bind.
      rewrite (get_path_lineage _ _ _ _ Hl Hlen), Hls. done.
    + constructor; [by exists n|done].
Qed.

(** X2.  When every name resolves to a clade whose recorded parents lead to
    the root, [get_common_ancestor] returns their lowest common ancestor
    and leaves the tree as it is: either the root, and then no clade below
    the root is on all the lineages; or a clade that is on the lineage of
    every named clade, and whose own lineage holds every clade that is on
    all of them. *)
Theorem lca_deepest_common fuel t names :
  names ≠ [] →
  (∀ name, name ∈ names →
     ∃ n l, node_names t !! name = Some n ∧ lineage t n l ∧ length l ≤ S fuel) →
  ∃ r, get_common_ancestor fuel names t = Ok (Some r, t)
       ∧ ((r = root t ∧ ∀ x, ¬ on_all t names x)
          ∨ (on_all t names r
             ∧ ∃ lr, lineage t r lr ∧ ∀ x, on_all t names x → x ∈ lr)).
Proof.
  intros Hne H.
  unfold get_common_ancestor, bind at 1, gets at 1. simpl.
  set (nodes := remove_dups _).
  assert (Hnodes : ∀ o, o ∈ nodes ↔ ∃ name, name ∈ names ∧ o = node_names t !! name).
  { intros o. unfold nodes. rewrite elem_of_remove_dups, list_elem_of_fmap.
    split; intros (name & ? & ?); by exists name. }
  assert (Hres : ∀ o, o ∈ nodes →
            ∃ n l, o = Some n ∧ lineage t n l ∧ length l ≤ S fuel).
  { intros o (name & Hname & ->)%Hnodes.
    destruct (H name Hname) as (n & l & -> & ? & ?). by exists n, l. }
  destruct (get_paths_lineages fuel t nodes Hres) as (ls & Hls & HF).
  (* every lineage of a named clade is one of the paths *)
  assert (Hin : ∀ name n l, name ∈ names → node_names t !! name = Some n →
                  lineage t n l → l ∈ ls).
  { intros name n l Hname Hn Hl.
    assert (Ho : Some n ∈ nodes) by (apply Hnodes; by exists name).
    apply list_elem_of_lookup in Ho as [i Hi].
    destruct (Forall2_lookup_l _ _ _ _ _ HF Hi) as (l' & Hl' & n' & [= <-] & Hln).
    rewrite (lineage_unique _ _ _ _ Hl Hln). by eapply list_elem_of_lookup_2. }
  (* every path is the lineage of a named clade *)
  assert (Hout : ∀ l, l ∈ ls → ∃ name n, name ∈ names
                   ∧ node_names t !! name = Some n ∧ lineage t n l).
  { intros l [i Hi]%list_elem_of_lookup.
    destruct (Forall2_lookup_r _ _ _ _ _ HF Hi) as (o & Ho & n & -> & Hl).
    apply list_elem_of_lookup_2, Hnodes in Ho as (name & ? & ?).
    by exists name, n. }
  clearbody nodes. destruct nodes as [|o [|o' nodes']].
  - destruct names as [|name names]; [done|].
    assert (Hx : node_names t !! name ∈ ([] : list (option node))).
    { apply Hnodes. exists name. split; [apply elem_of_cons; by left|done]. }
    by apply not_elem_of_nil in Hx.
  - (* one distinct clade *)
    apply Forall2_cons_inv_l in HF as (l & ls' & (n & -> & Hl) & HF' & ->).
    apply Forall2_nil_inv_l in HF' as ->.
    exists n. split; [done|]. right. split.
    + intros name n' l' Hname Hn' Hl'.
      specialize (Hin name n' l' Hname Hn' Hl').
      apply list_elem_of_singleton in Hin as ->.
      destruct Hl as [_ Hlast], Hl' as [_ Hlast'].
      assert (n' = n) as -> by congruence.
      destruct l as [|z l _] using rev_ind; [done|].
      rewrite last_snoc in Hlast. injection Hlast as ->.
      apply elem_of_app. right. by apply list_elem_of_singleton.
    + exists l. split; [done|]. intros x Hx.
      destruct (Hout l) as (name & n' & ? & ? & ?);
        [by apply list_elem_of_singleton|].
      by eapply Hx.
  - (* several clades *)
    unfold bind at 1. rewrite Hls, all_paths_Some.
    pose proof (sorted_len_perm ls) as Hperm.
    destruct (sorted_len ls) as [|p0 rest] eqn:Hs.
    { apply Permutation_nil_l in Hperm. subst ls.
      by apply Forall2_nil_inv_r in HF. }
    assert (Hp0 : p0 ∈ ls) by (rewrite <- Hperm; apply elem_of_cons; by left).
    assert (Hrest : ∀ q, q ∈ rest → q ∈ ls).
    { intros q Hq. rewrite <- Hperm. apply elem_of_cons. by right. }
    destruct (Hout p0 Hp0) as (name0 & n0 & Hname0 & Hn0 & Hl0).
    assert (Hne0 : rev p0 ≠ []).
    { intros Hnil. apply (f_equal (@rev node)) in Hnil. rewrite rev_involutive in Hnil.
      simpl in Hnil. subst p0. by apply lineage_not_nil in Hl0. }
    pose proof (intersect_spec rest (rev p0) Hne0) as Hspec.
    assert (Hcl : ∀ q d x r, q ∈ rest → rev p0 = d ++ x :: r → x ∈ q →
                    ∀ y, y ∈ r → y ∈ q).
    { intros q d x r Hq Heq Hx y Hy.
      destruct (Hout q (Hrest q Hq)) as (nameq & nq & _ & _ & Hlq).
      apply (f_equal (@rev node)) in Heq. rewrite rev_involutive in Heq.
      rewrite rev_app_distr in Heq. simpl in Heq. rewrite <- app_assoc in Heq.
      simpl in Heq. rewrite Heq in Hl0.
      eapply (lineage_shared_prefix t n0 (rev r) x (rev d) nq q); try done.
      by apply elem_of_rev. }
    specialize (Hspec Hcl).
    assert (Hall : ∀ x, on_all t names x → x ∈ rev p0).
    { intros x Hx. apply elem_of_rev. by eapply Hx. }
    assert (Hmiss : ∀ x, on_all t names x → ¬ ∃ q, q ∈ rest ∧ x ∉ q).
    { intros x Hx (q & Hq & Hnot). apply Hnot.
      destruct (Hout q (Hrest q Hq)) as (nameq & nq & ? & ? & ?). by eapply Hx. }
    destruct (intersect (rev p0) rest) as [[|x rp']| |].
    + destruct Hspec as (? & ? & ? & _ & [=] & _).
    + destruct Hspec as (d & x' & rest' & Hrp & [= <- <-] & Hcommon & Hdropped).
      exists x. split; [done|]. right.
      apply (f_equal (@rev node)) in Hrp. rewrite rev_involutive in Hrp.
      rewrite rev_app_distr in Hrp. simpl in Hrp. rewrite <- app_assoc in Hrp.
      simpl in Hrp.
      split.
      * intros name n l Hname Hn Hl.
        pose proof (Hin name n l Hname Hn Hl) as Hl_in.
        rewrite <- Hperm in Hl_in. apply elem_of_cons in Hl_in as [->|Hq].
        -- rewrite Hrp. apply elem_of_app. right. apply elem_of_cons. by left.
        -- apply (Hcommon l x Hq). apply elem_of_cons. by left.
      * exists (rev rp' ++ [x]). split.
        -- rewrite Hrp in Hl0. by eapply lineage_prefix.
        -- intros y Hy. pose proof (Hall y Hy) as Hyin.
           rewrite elem_of_rev, Hrp in Hyin.
           rewrite elem_of_app, elem_of_cons in Hyin.
           rewrite elem_of_app, list_elem_of_singleton.
           destruct Hyin as [?|[?|Hyd]]; [by left|by right|].
           exfalso. apply (Hmiss y Hy). apply Hdropped. by apply elem_of_rev.
    + exists (root t). split; [done|]. left. split; [done|].
      intros x Hx. apply (Hmiss x Hx). apply Hspec. by apply Hall.
    + done.
Qed.

Lemma lca_deepest_common_witness :
  ∃ r, get_common_ancestor 5 ["AB123456"; "Bact kingdom"; "AB123456"] Sample.tre
       = Ok (Some r, Sample.tre).
Proof.
  destruct (lca_deepest_common 5 Sample.tre ["AB123456"; "Bact kingdom"; "AB123456"])
    as (r & Hr & _); [done| |by exists r].
  intros name Hname.
  assert (Hcases : name = "AB123456" ∨ name = "Bact kingdom").
  { repeat (apply elem_of_cons in Hname as [->|Hname]; [tauto|]).
    by apply not_elem_of_nil in Hname. }
  destruct Hcases as [->| ->].
  - exists 8, [1; 2; 4; 5; 6; 8]. split; [vm_compute; reflexivity|].
    split; [vm_compute; repeat split; discriminate|simpl; lia].
  - exists 5, [1; 2; 4; 5]. split; [vm_compute; reflexivity|].
    split; [vm_compute; repeat split; discriminate|simpl; lia].
Defined.
